(** * twoBitCompress: 2-bit packing of DNA sequences

    A shallow embedding of [src/twoBitCompressor.cpp] and the proofs of its
    packing, framing and safety properties.

    The C++ function

      void twoBitCompress(char* seq, size_t seqLen, uint32_t* compressedSeq)

    reads the [seqLen] bytes of [seq] and packs them, two bits per symbol and
    sixteen symbols per 32-bit word, into [compressedSeq].  The outer loop is
    a [tbb::parallel_for] over the word indices; the inner loop is
    sequential.

    Conventions of the embedding:
    - [size_t] is a 64-bit unsigned integer and [uint32_t] a 32-bit one; both
      are values of [Z] and every arithmetic operation of the source writes
      its wrap-around out ([wrap_size], [wrap_u32]);
    - the two buffers are two arrays of a machine state: [seq] a
      [list byte], [compressedSeq] a [list Z]; an access outside an array
      and a shift by 32 or more are undefined behaviour in C++ and make the
      computation fail ([None]);
    - every primitive operation is recorded, in execution order, in a log
      carried by the machine state, so that statements about which cells
      were read or written are statements about that log;
    - [tbb::parallel_for] runs the loop body once per index of the range in
      an order of the scheduler's choosing: the scheduler is a parameter
      that reorders the index range. *)

From Stdlib Require Import ZArith Lia Strings.Byte.
From stdpp Require Import base tactics option list list_numbers.

Open Scope Z_scope.

(** ** Machine integers *)

Definition SIZE_MAX : Z := 2 ^ 64 - 1.
Definition UINT32_MAX : Z := 2 ^ 32 - 1.

(** Arithmetic on [size_t] is modulo [SIZE_MAX + 1], on [uint32_t] modulo
    [UINT32_MAX + 1]. *)
Definition wrap_size (z : Z) : Z := z mod 2 ^ 64.
Definition wrap_u32 (z : Z) : Z := z mod 2 ^ 32.

(** ** Machine state, primitive operations and their log *)

Inductive event : Type :=
| EvLoadSeq (j : Z) (c : byte)      (* seq[j] was read and held c *)
| EvShl (v s : Z)                   (* v << s was computed *)
| EvLoadOut (i : Z) (w : Z)         (* compressedSeq[i] was read and held w *)
| EvStoreOut (i : Z) (w : Z).       (* w was written to compressedSeq[i] *)

Record machine : Type := Machine {
  m_seq : list byte;
  m_compressedSeq : list Z;
  m_log : list event
}.

Definition record (e : event) (m : machine) : machine :=
  {| m_seq := m_seq m;
     m_compressedSeq := m_compressedSeq m;
     m_log := m_log m ++ [e] |}.

(** Computations: state passing over [machine], [None] for undefined
    behaviour (and for a loop that would exhaust its fuel). *)
Definition M (A : Type) : Type := machine -> option (A * machine).

Definition ret {A} (a : A) : M A := fun m => Some (a, m).
Definition fail {A} : M A := fun _ => None.
Definition bind {A B} (c : M A) (k : A -> M B) : M B :=
  fun m => match c m with
           | Some (a, m') => k a m'
           | None => None
           end.

Notation "x <~ c ;; k" := (bind c (fun x => k))
  (at level 100, c at next level, right associativity).
Notation "c ;;; k" := (bind c (fun _ => k))
  (at level 100, right associativity).

(** [seq[j]] *)
Definition load_seq (j : Z) : M byte := fun m =>
  if 0 <=? j then
    match m_seq m !! Z.to_nat j with
    | Some c => Some (c, record (EvLoadSeq j c) m)
    | None => None
    end
  else None.

(** [compressedSeq[i]] as an rvalue *)
Definition load_out (i : Z) : M Z := fun m =>
  if 0 <=? i then
    match m_compressedSeq m !! Z.to_nat i with
    | Some w => Some (w, record (EvLoadOut i w) m)
    | None => None
    end
  else None.

(** [compressedSeq[i] = w] *)
Definition store_out (i w : Z) : M unit := fun m =>
  if (0 <=? i) && (Z.to_nat i <? length (m_compressedSeq m))%nat then
    Some (tt, {| m_seq := m_seq m;
                 m_compressedSeq := <[Z.to_nat i := w]> (m_compressedSeq m);
                 m_log := m_log m ++ [EvStoreOut i w] |})
  else None.

(** [v << s] on [uint32_t]: undefined for [s >= 32], otherwise the bits
    shifted past bit 31 are dropped. *)
Definition shl_u32 (v s : Z) : M Z := fun m =>
  if (0 <=? s) && (s <? 32) then
    Some (wrap_u32 (Z.shiftl v s), record (EvShl v s) m)
  else None.

(** ** The program *)

(** The [switch] of lines 38-54: the value it leaves in [twoBitVal]. *)
Definition twoBitVal (c : byte) : Z :=
  match c with
  | "A"%byte => 0
  | "C"%byte => 1
  | "G"%byte => 2
  | "T"%byte => 3
  | _ => 0
  end.

(** One iteration of the inner loop (lines 38-56); [shift] is the local
    of that name and the result is its value after [shift += 2].  In
    [compressedSeq[i] |= (twoBitVal << shift)] the right operand is
    evaluated first, then the cell is read and written back. *)
Definition loop_body (i j shift : Z) : M Z :=
  c <~ load_seq j ;;
  v <~ shl_u32 (twoBitVal c) shift ;;
  w <~ load_out i ;;
  store_out i (Z.lor w v) ;;;
  ret (wrap_u32 (shift + 2)).

(** [for (auto j = start; j < end; j++)], from a given [j] on.  The loop
    test is the source's; [fuel] only makes the recursion structural and
    running out of it is a failure. *)
Fixpoint for_loop (fuel : nat) (i end_ j shift : Z) : M unit :=
  if j <? end_ then
    match fuel with
    | O => fail
    | S fuel' =>
        shift' <~ loop_body i j shift ;;
        for_loop fuel' i end_ (wrap_size (j + 1)) shift'
    end
  else ret tt.

(** The body of the lambda of line 31, for word index [i]. *)
Definition lambda (seqLen i : Z) : M unit :=
  store_out i 0 ;;;
  let start := wrap_size (16 * i) in
  let end_ := Z.min seqLen (wrap_size (start + 16)) in
  for_loop (Z.to_nat (end_ - start)) i end_ start 0.

(** A scheduler decides in which order the indices of a range are
    processed. *)
Definition scheduler : Type := list Z -> list Z.

Definition fair (sigma : scheduler) : Prop := forall l, sigma l ≡ₚ l.

Fixpoint run_all (f : Z -> M unit) (indices : list Z) : M unit :=
  match indices with
  | [] => ret tt
  | i :: rest => f i ;;; run_all f rest
  end.

(** [tbb::parallel_for(first, last, f)] *)
Definition parallel_for (sigma : scheduler) (first last : Z)
    (f : Z -> M unit) : M unit :=
  run_all f (sigma (seqZ first (last - first))).

Definition compressedSeqLen (seqLen : Z) : Z := wrap_size (seqLen + 15) / 16.

Definition twoBitCompress (sigma : scheduler) (seqLen : Z) : M unit :=
  parallel_for sigma 0 (compressedSeqLen seqLen) (lambda seqLen).

(** A call [twoBitCompress(seq, seqLen, compressedSeq)] on fresh buffers. *)
Definition call (sigma : scheduler) (seq : list byte) (seqLen : Z)
    (compressedSeq : list Z) : option machine :=
  match twoBitCompress sigma seqLen (Machine seq compressedSeq []) with
  | Some (_, m) => Some m
  | None => None
  end.

Definition in_order : scheduler := fun l => l.
Definition backwards : scheduler := fun l => reverse l.

(** ** Reference functions for the statements *)

(** The quotient of [n] by 16, rounded up. *)
Definition ceil16 (n : Z) : Z := n / 16 + (if n mod 16 =? 0 then 0 else 1).

(** How many symbols word [i] packs. *)
Definition symbols_in_word (seqLen i : Z) : Z :=
  Z.min seqLen (16 * i + 16) - 16 * i.

(** The symbols word [i] packs. *)
Definition chunk (seq : list byte) (seqLen i : Z) : list byte :=
  take (Z.to_nat (symbols_in_word seqLen i)) (drop (Z.to_nat (16 * i)) seq).

(** OR-ing the codes of [cs] into [w], the first one at bit [shift]. *)
Fixpoint accumulate (w shift : Z) (cs : list byte) : Z :=
  match cs with
  | [] => w
  | c :: cs' =>
      accumulate (Z.lor w (Z.shiftl (twoBitVal c) shift)) (shift + 2) cs'
  end.

Definition word (seq : list byte) (seqLen i : Z) : Z :=
  accumulate 0 0 (chunk seq seqLen i).

(** The operations the inner loop performs on the symbols [cs], the first
    of which is at position [j] and is shifted by [shift], when
    [compressedSeq[i]] holds [w]. *)
Fixpoint loop_trace (i j w shift : Z) (cs : list byte) : list event :=
  match cs with
  | [] => []
  | c :: cs' =>
      let w' := Z.lor w (Z.shiftl (twoBitVal c) shift) in
      EvLoadSeq j c :: EvShl (twoBitVal c) shift :: EvLoadOut i w
        :: EvStoreOut i w' :: loop_trace i (j + 1) w' (shift + 2) cs'
  end.

(** The operations of one invocation of the lambda. *)
Definition word_trace (seq : list byte) (seqLen i : Z) : list event :=
  EvStoreOut i 0 :: loop_trace i (16 * i) 0 0 (chunk seq seqLen i).

Definition is_store_to (i : Z) (e : event) : bool :=
  match e with
  | EvStoreOut i' _ => i' =? i
  | _ => false
  end.

Definition is_load_from (i : Z) (e : event) : bool :=
  match e with
  | EvLoadOut i' _ => i' =? i
  | _ => false
  end.

(** How often [compressedSeq[i]] is written, and read, in a log. *)
Definition stores_to (i : Z) (log : list event) : nat :=
  length (List.filter (is_store_to i) log).
Definition loads_from (i : Z) (log : list event) : nat :=
  length (List.filter (is_load_from i) log).

(** The precondition of a call, as the caller has to establish it: [seq]
    holds [seqLen] bytes, the output buffer holds exactly [ceil(seqLen/16)]
    words, and [seqLen + 15], which the program computes, is within
    [size_t] - as it is whenever the two buffers fit together in a 64-bit
    address space (lemma [buffers_fit_no_wrap]). *)
Record precondition (seq : list byte) (seqLen : Z) (compressedSeq : list Z)
  : Prop := Precondition {
  pre_seq : Z.of_nat (length seq) = seqLen;
  pre_size : seqLen + 15 <= SIZE_MAX;
  pre_out : Z.of_nat (length compressedSeq) = ceil16 seqLen
}.

(** The output buffer after the words of [indices] were stored, in that
    order. *)
Definition pack_words (seq : list byte) (seqLen : Z) (out : list Z)
    (indices : list Z) : list Z :=
  foldl (fun o i => <[Z.to_nat i := word seq seqLen i]> o) out indices.

(** An access is within bounds when it falls inside [seq[0..seqLen)] or
    [compressedSeq[0..numWords)]. *)
Definition in_bounds (seqLen numWords : Z) (e : event) : Prop :=
  match e with
  | EvLoadSeq j _ => 0 <= j < seqLen
  | EvLoadOut i _ => 0 <= i < numWords
  | EvStoreOut i _ => 0 <= i < numWords
  | EvShl _ _ => True
  end.

(** A computation frames the input when, whatever state it starts in, it
    leaves [seq] as it found it and the output buffer at its length. *)
Definition frames_input {A} (c : M A) : Prop :=
  forall m a m', c m = Some (a, m') ->
    m_seq m' = m_seq m /\
    length (m_compressedSeq m') = length (m_compressedSeq m).

(** In a log split around a shift, the shift directly follows the read of
    a symbol, and shifts that symbol's code by twice the symbol's offset
    in its word ([start = 16 * i]). *)
Definition shift_of_symbol (before : list event) (v s : Z) : Prop :=
  exists before' i j c,
    before = before' ++ [EvLoadSeq j c] /\
    v = twoBitVal c /\
    16 * i <= j < 16 * i + 16 /\
    s = 2 * (j - 16 * i).

(** ** Reference functions for the further properties *)

(** The number whose base-4 digits, least significant first, are the codes
    of [cs]. *)
Fixpoint base4 (cs : list byte) : Z :=
  match cs with
  | [] => 0
  | c :: cs' => twoBitVal c + 4 * base4 cs'
  end.

Definition is_read_of (j : Z) (e : event) : bool :=
  match e with
  | EvLoadSeq j' _ => j' =? j
  | _ => false
  end.

(** How often [seq[j]] is read in a log. *)
Definition reads_of (j : Z) (log : list event) : nat :=
  length (List.filter (is_read_of j) log).

(** Two machine states that differ at most in the bytes of [seq] from
    index [n] on. *)
Definition same_below (n : Z) (m m' : machine) : Prop :=
  take (Z.to_nat n) (m_seq m) = take (Z.to_nat n) (m_seq m') /\
  m_compressedSeq m = m_compressedSeq m' /\
  m_log m = m_log m'.

(** Two outcomes that fail together or return the same value in states
    that are [same_below n]. *)
Definition agree {A} (n : Z) (r r' : option (A * machine)) : Prop :=
  match r, r' with
  | Some (a, m), Some (a', m') => a = a' /\ same_below n m m'
  | None, None => True
  | _, _ => False
  end.

(** A computation that does not look at [seq] from index [n] on. *)
Definition blind_from {A} (n : Z) (c : M A) : Prop :=
  forall m m', same_below n m m' -> agree n (c m) (c m').

(** The value last stored to [compressedSeq[i]] in a log, if any. *)
Fixpoint last_store (i : Z) (log : list event) : option Z :=
  match log with
  | [] => None
  | e :: log' =>
      match last_store i log' with
      | Some w => Some w
      | None =>
          match e with
          | EvStoreOut i' w => if i' =? i then Some w else None
          | _ => None
          end
      end
  end.

(** After the operations [init], every read of the output buffer in [log]
    returns the value last stored to the cell read. *)
Definition reads_own_stores (init log : list event) : Prop :=
  forall before i w after,
    log = before ++ EvLoadOut i w :: after ->
    last_store i (init ++ before) = Some w.

(** * Proofs *)

Ltac Zify.zify_post_hook ::= Z.div_mod_to_equations.

(** ** The model at work *)

Example call_GACT :
  call in_order ["G"; "A"; "C"; "T"]%byte 4 [77] =
    Some (Machine ["G"; "A"; "C"; "T"]%byte [210]
            [EvStoreOut 0 0;
             EvLoadSeq 0 "G"; EvShl 2 0; EvLoadOut 0 0; EvStoreOut 0 2;
             EvLoadSeq 1 "A"; EvShl 0 2; EvLoadOut 0 2; EvStoreOut 0 2;
             EvLoadSeq 2 "C"; EvShl 1 4; EvLoadOut 0 2; EvStoreOut 0 18;
             EvLoadSeq 3 "T"; EvShl 3 6; EvLoadOut 0 18; EvStoreOut 0 210]).
Proof. reflexivity. Qed.

Example call_17T_backwards :
  m_compressedSeq <$> call backwards (replicate 17 "T"%byte) 17 [5; 6] =
    Some [4294967295; 3].
Proof. reflexivity. Qed.

(** An output buffer one word short, or a sequence shorter than [seqLen],
    is an access out of bounds. *)
Example call_short_output :
  call in_order (replicate 17 "T"%byte) 17 [5] = None.
Proof. reflexivity. Qed.

Example call_short_input :
  call in_order (replicate 16 "T"%byte) 17 [5; 6] = None.
Proof. reflexivity. Qed.

(** ** Arithmetic of the word count *)

Lemma ceil16_spec n : 16 * (ceil16 n - 1) < n <= 16 * ceil16 n.
Proof. unfold ceil16. destruct (Z.eqb_spec (n mod 16) 0); lia. Qed.

Lemma compressedSeqLen_ceil16 seqLen :
  0 <= seqLen -> seqLen + 15 <= SIZE_MAX ->
  compressedSeqLen seqLen = ceil16 seqLen.
Proof.
  unfold compressedSeqLen, wrap_size, SIZE_MAX, ceil16. intros H0 H1.
  rewrite Z.mod_small by lia.
  destruct (Z.eqb_spec (seqLen mod 16) 0); lia.
Qed.

(** For the fifteen largest values of [size_t] the sum [seqLen + 15] wraps
    and the word count is 0. *)
Lemma compressedSeqLen_wraps seqLen :
  SIZE_MAX - 15 < seqLen <= SIZE_MAX -> compressedSeqLen seqLen = 0.
Proof.
  unfold compressedSeqLen, wrap_size, SIZE_MAX. intros H.
  replace ((seqLen + 15) mod 2 ^ 64) with (seqLen + 15 - 2 ^ 64).
  - apply Z.div_small. lia.
  - apply Z.mod_unique with 1; lia.
Qed.

Lemma compressedSeqLen_range seqLen i :
  0 <= seqLen <= SIZE_MAX -> 0 <= i < compressedSeqLen seqLen ->
  seqLen + 15 <= SIZE_MAX /\ 16 * i < seqLen.
Proof.
  intros Hs Hi.
  destruct (Z_le_gt_dec (seqLen + 15) SIZE_MAX) as [Hle|Hgt].
  - split; [exact Hle|].
    rewrite compressedSeqLen_ceil16 in Hi by lia.
    pose proof (ceil16_spec seqLen). lia.
  - rewrite compressedSeqLen_wraps in Hi by lia. lia.
Qed.

Lemma compressedSeqLen_le_ceil16 seqLen :
  0 <= seqLen <= SIZE_MAX -> 0 <= compressedSeqLen seqLen <= ceil16 seqLen.
Proof.
  intros Hs.
  destruct (Z_le_gt_dec (seqLen + 15) SIZE_MAX) as [Hle|Hgt].
  - rewrite compressedSeqLen_ceil16 by lia.
    pose proof (ceil16_spec seqLen). lia.
  - rewrite compressedSeqLen_wraps by lia.
    pose proof (ceil16_spec seqLen). lia.
Qed.

(** ** The switch *)

Lemma twoBitVal_range c : 0 <= twoBitVal c <= 3.
Proof. destruct c; simpl; lia. Qed.

Lemma twoBitVal_other c :
  c <> "A"%byte -> c <> "C"%byte -> c <> "G"%byte -> c <> "T"%byte ->
  twoBitVal c = 0.
Proof. destruct c; simpl; congruence. Qed.

(** A code shifted by at most 30 fits in 32 bits. *)
Lemma shifted_code_fits v s :
  0 <= v <= 3 -> 0 <= s <= 30 -> wrap_u32 (Z.shiftl v s) = Z.shiftl v s.
Proof.
  intros Hv Hs. unfold wrap_u32. apply Z.mod_small.
  rewrite Z.shiftl_mul_pow2 by lia.
  assert (0 < 2 ^ s) by (apply Z.pow_pos_nonneg; lia).
  assert (2 ^ s <= 2 ^ 30) by (apply Z.pow_le_mono_r; lia).
  change (2 ^ 32) with (4 * 2 ^ 30). nia.
Qed.

(** ** Primitive operations *)

Lemma load_seq_ok j c m :
  0 <= j -> m_seq m !! Z.to_nat j = Some c ->
  load_seq j m = Some (c, record (EvLoadSeq j c) m).
Proof.
  intros Hj Hc. unfold load_seq.
  destruct (Z.leb_spec 0 j); [|lia]. by rewrite Hc.
Qed.

Lemma load_out_ok i w m :
  0 <= i -> m_compressedSeq m !! Z.to_nat i = Some w ->
  load_out i m = Some (w, record (EvLoadOut i w) m).
Proof.
  intros Hi Hw. unfold load_out.
  destruct (Z.leb_spec 0 i); [|lia]. by rewrite Hw.
Qed.

Lemma store_out_ok i w m :
  0 <= i -> (Z.to_nat i < length (m_compressedSeq m))%nat ->
  store_out i w m =
    Some (tt, Machine (m_seq m) (<[Z.to_nat i := w]> (m_compressedSeq m))
                      (m_log m ++ [EvStoreOut i w])).
Proof.
  intros Hi Hlen. unfold store_out.
  destruct (Z.leb_spec 0 i); [|lia].
  destruct (Nat.ltb_spec (Z.to_nat i) (length (m_compressedSeq m))); [|lia].
  reflexivity.
Qed.

Lemma shl_u32_ok v s m :
  0 <= v <= 3 -> 0 <= s <= 30 ->
  shl_u32 v s m = Some (Z.shiftl v s, record (EvShl v s) m).
Proof.
  intros Hv Hs. unfold shl_u32.
  destruct (Z.leb_spec 0 s); [|lia].
  destruct (Z.ltb_spec s 32); [|lia].
  simpl. by rewrite shifted_code_fits.
Qed.

(** ** The inner loop *)

Lemma for_loop_spec cs : forall fuel i end_ j shift w rest m,
  0 <= j -> end_ <= SIZE_MAX ->
  end_ - j = Z.of_nat (length cs) -> (length cs <= fuel)%nat ->
  drop (Z.to_nat j) (m_seq m) = cs ++ rest ->
  0 <= shift -> shift + 2 * Z.of_nat (length cs) <= 32 ->
  0 <= i -> m_compressedSeq m !! Z.to_nat i = Some w ->
  for_loop fuel i end_ j shift m =
    Some (tt, Machine (m_seq m)
                (<[Z.to_nat i := accumulate w shift cs]> (m_compressedSeq m))
                (m_log m ++ loop_trace i j w shift cs)).
Proof.
  induction cs as [|c cs IH];
    intros fuel i end_ j shift w rest m Hj Hend Hlen Hfuel Hdrop Hs Hs' Hi Hw.
  - simpl in *. assert (end_ = j) as -> by lia.
    destruct fuel; simpl; rewrite Z.ltb_irrefl; unfold ret;
      rewrite list_insert_id, app_nil_r by done; by destruct m.
  - simpl length in *.
    destruct fuel as [|fuel]; [lia|]. simpl for_loop.
    destruct (Z.ltb_spec j end_); [|lia].
    assert (m_seq m !! Z.to_nat j = Some c) as Hc.
    { rewrite <- (Nat.add_0_r (Z.to_nat j)), <- lookup_drop, Hdrop. done. }
    pose proof (twoBitVal_range c) as Hv.
    pose proof (lookup_lt_Some _ _ _ Hw) as Hlt.
    unfold loop_body, bind.
    rewrite (load_seq_ok j c) by done.
    rewrite shl_u32_ok by lia.
    rewrite (load_out_ok i w) by done.
    rewrite store_out_ok by done.
    unfold ret. simpl.
    replace (wrap_size (j + 1)) with (j + 1)
      by (unfold wrap_size, SIZE_MAX in *; rewrite Z.mod_small; lia).
    replace (wrap_u32 (shift + 2)) with (shift + 2)
      by (unfold wrap_u32; rewrite Z.mod_small; lia).
    erewrite (IH fuel i end_ (j + 1) (shift + 2)
                (Z.lor w (Z.shiftl (twoBitVal c) shift)) rest); simpl.
    + rewrite list_insert_insert_eq. rewrite <- !app_assoc. reflexivity.
    + lia.
    + lia.
    + lia.
    + lia.
    + replace (Z.to_nat (j + 1)) with (S (Z.to_nat j)) by lia.
      rewrite (drop_S _ _ _ Hc) in Hdrop. by injection Hdrop.
    + lia.
    + lia.
    + lia.
    + by rewrite list_lookup_insert_eq.
Qed.

(** ** One invocation of the lambda *)

Lemma length_chunk seq seqLen i :
  Z.of_nat (length seq) = seqLen -> 0 <= i -> 16 * i <= seqLen ->
  Z.of_nat (length (chunk seq seqLen i)) = symbols_in_word seqLen i.
Proof.
  intros Hlen Hi Hlt. unfold chunk, symbols_in_word.
  rewrite length_take, length_drop. lia.
Qed.

Lemma symbols_in_word_range seqLen i :
  0 <= i -> 16 * i <= seqLen -> 0 <= symbols_in_word seqLen i <= 16.
Proof. unfold symbols_in_word. lia. Qed.

Lemma lambda_spec seqLen i m :
  0 <= seqLen <= SIZE_MAX -> Z.of_nat (length (m_seq m)) = seqLen ->
  0 <= i < compressedSeqLen seqLen ->
  (Z.to_nat i < length (m_compressedSeq m))%nat ->
  lambda seqLen i m =
    Some (tt, Machine (m_seq m)
                (<[Z.to_nat i := word (m_seq m) seqLen i]> (m_compressedSeq m))
                (m_log m ++ word_trace (m_seq m) seqLen i)).
Proof.
  intros Hs Hlen Hi Hout.
  destruct (compressedSeqLen_range seqLen i Hs Hi) as [Hmax Hstart].
  pose proof (length_chunk (m_seq m) seqLen i Hlen) as Hchunk.
  pose proof (symbols_in_word_range seqLen i) as Hn.
  unfold lambda, bind. rewrite store_out_ok by lia.
  replace (wrap_size (16 * i)) with (16 * i)
    by (unfold wrap_size, SIZE_MAX in *; rewrite Z.mod_small; lia).
  replace (wrap_size (16 * i + 16)) with (16 * i + 16)
    by (unfold wrap_size, SIZE_MAX in *; rewrite Z.mod_small; lia).
  erewrite (for_loop_spec (chunk (m_seq m) seqLen i) _ i _ (16 * i) 0 0
              (drop (Z.to_nat (symbols_in_word seqLen i))
                 (drop (Z.to_nat (16 * i)) (m_seq m)))); simpl.
  - rewrite list_insert_insert_eq. unfold word, word_trace.
    by rewrite <- app_assoc.
  - lia.
  - lia.
  - unfold symbols_in_word in *. lia.
  - unfold symbols_in_word in *. lia.
  - unfold chunk. by rewrite take_drop.
  - lia.
  - lia.
  - lia.
  - apply list_lookup_insert_eq. lia.
Qed.

(** ** The parallel loop *)

Lemma length_pack_words seq seqLen indices : forall out,
  length (pack_words seq seqLen out indices) = length out.
Proof.
  unfold pack_words.
  induction indices as [|i indices IH]; intros out; simpl; [done|].
  by rewrite IH, length_insert.
Qed.

Lemma pack_words_lookup seq seqLen indices : forall out k,
  Forall (fun i => 0 <= i) indices -> (k < length out)%nat ->
  pack_words seq seqLen out indices !! k =
    if decide (Z.of_nat k ∈ indices)
    then Some (word seq seqLen (Z.of_nat k))
    else out !! k.
Proof.
  unfold pack_words.
  induction indices as [|i indices IH]; intros out k Hpos Hk; cbn [foldl].
  - rewrite decide_False; [done|]. by intros ?%elem_of_nil.
  - apply Forall_cons in Hpos as [Hi Hpos].
    rewrite IH by (rewrite ?length_insert; done).
    destruct (decide (Z.of_nat k ∈ indices)) as [Hin|Hnin].
    + rewrite decide_True; [done|]. by apply list_elem_of_further.
    + destruct (decide (Z.of_nat k = i)) as [<-|Hne].
      * rewrite decide_True by apply list_elem_of_here.
        rewrite Nat2Z.id. by apply list_lookup_insert_eq.
      * rewrite decide_False.
        -- apply list_lookup_insert_ne. lia.
        -- intros [?|?]%elem_of_cons; done.
Qed.

Lemma run_all_spec seqLen indices : forall m,
  0 <= seqLen <= SIZE_MAX -> Z.of_nat (length (m_seq m)) = seqLen ->
  Forall (fun i => 0 <= i < compressedSeqLen seqLen) indices ->
  compressedSeqLen seqLen <= Z.of_nat (length (m_compressedSeq m)) ->
  run_all (lambda seqLen) indices m =
    Some (tt, Machine (m_seq m)
                (pack_words (m_seq m) seqLen (m_compressedSeq m) indices)
                (m_log m ++ flat_map (word_trace (m_seq m) seqLen) indices)).
Proof.
  induction indices as [|i indices IH]; intros m Hs Hlen Hall Hout; simpl.
  - unfold ret. rewrite app_nil_r. by destruct m.
  - apply Forall_cons in Hall as [Hi Hall].
    unfold bind. rewrite lambda_spec by (done || lia).
    rewrite IH; simpl; try done.
    + by rewrite <- app_assoc.
    + by rewrite length_insert.
Qed.

Lemma fair_range sigma first len :
  fair sigma ->
  Forall (fun i => first <= i < first + len) (sigma (seqZ first len)).
Proof.
  intros Hfair. rewrite (Hfair _). by apply Forall_seqZ.
Qed.

(** What a call returns, for the order the scheduler picked. *)
Lemma twoBitCompress_spec sigma seqLen m :
  fair sigma -> 0 <= seqLen <= SIZE_MAX ->
  Z.of_nat (length (m_seq m)) = seqLen ->
  compressedSeqLen seqLen <= Z.of_nat (length (m_compressedSeq m)) ->
  let order := sigma (seqZ 0 (compressedSeqLen seqLen - 0)) in
  twoBitCompress sigma seqLen m =
    Some (tt, Machine (m_seq m)
                (pack_words (m_seq m) seqLen (m_compressedSeq m) order)
                (m_log m ++ flat_map (word_trace (m_seq m) seqLen) order)).
Proof.
  intros Hfair Hs Hlen Hout order.
  unfold twoBitCompress, parallel_for. fold order.
  apply run_all_spec; try done.
  pose proof (fair_range sigma 0 (compressedSeqLen seqLen - 0) Hfair) as Hr.
  fold order in Hr. eapply Forall_impl; [exact Hr|]. simpl. lia.
Qed.

Lemma call_spec sigma seq seqLen out :
  fair sigma -> 0 <= seqLen <= SIZE_MAX -> Z.of_nat (length seq) = seqLen ->
  compressedSeqLen seqLen <= Z.of_nat (length out) ->
  let order := sigma (seqZ 0 (compressedSeqLen seqLen - 0)) in
  call sigma seq seqLen out =
    Some (Machine seq (pack_words seq seqLen out order)
            (flat_map (word_trace seq seqLen) order)).
Proof.
  intros Hfair Hs Hlen Hout order. unfold call.
  by rewrite twoBitCompress_spec.
Qed.

(** The buffer a call leaves does not depend on the order. *)
Lemma pack_words_fair seq seqLen out order n k :
  order ≡ₚ seqZ 0 n -> (k < length out)%nat ->
  pack_words seq seqLen out order !! k =
    if decide (Z.of_nat k < n)
    then Some (word seq seqLen (Z.of_nat k))
    else out !! k.
Proof.
  intros Hperm Hk. rewrite pack_words_lookup; [|
    rewrite Hperm; apply Forall_seqZ; lia | done].
  destruct (decide (Z.of_nat k < n)) as [Hlt|Hge].
  - rewrite decide_True; [done|]. rewrite Hperm, elem_of_seqZ. lia.
  - rewrite decide_False; [done|]. rewrite Hperm, elem_of_seqZ. lia.
Qed.

(** ** The bits of a word *)

Lemma twoBitVal_high_bits c t : 2 <= t -> Z.testbit (twoBitVal c) t = false.
Proof.
  intros Ht. pose proof (twoBitVal_range c) as Hv.
  destruct (decide (twoBitVal c = 0)) as [->|Hne]; [apply Z.bits_0|].
  apply Z.bits_above_log2; [lia|].
  assert (Z.log2 (twoBitVal c) <= Z.log2 3) by (apply Z.log2_le_mono; lia).
  change (Z.log2 3) with 1 in *. lia.
Qed.

Lemma shifted_code_testbit c shift b :
  0 <= b -> b < shift \/ shift + 2 <= b ->
  Z.testbit (Z.shiftl (twoBitVal c) shift) b = false.
Proof.
  intros Hb Hout. rewrite Z.shiftl_spec by done.
  destruct Hout; [apply Z.testbit_neg_r; lia|apply twoBitVal_high_bits; lia].
Qed.

(** Bits outside the slots of [cs] are those of [w]. *)
Lemma accumulate_testbit_outside cs : forall w shift b,
  0 <= b -> b < shift \/ shift + 2 * Z.of_nat (length cs) <= b ->
  Z.testbit (accumulate w shift cs) b = Z.testbit w b.
Proof.
  induction cs as [|c cs IH]; intros w shift b Hb Hout; simpl; [done|].
  rewrite IH by (simpl length in Hout; lia).
  rewrite Z.lor_spec, shifted_code_testbit by (simpl length in Hout; lia).
  apply orb_false_r.
Qed.

(** Bit [t] of the slot of the [k]-th symbol. *)
Lemma accumulate_testbit_slot cs : forall w shift k c t,
  0 <= shift -> cs !! k = Some c -> 0 <= t < 2 ->
  Z.testbit (accumulate w shift cs) (shift + 2 * Z.of_nat k + t) =
    Z.testbit w (shift + 2 * Z.of_nat k + t) || Z.testbit (twoBitVal c) t.
Proof.
  induction cs as [|c' cs IH]; intros w shift k c t Hs Hk Ht; [done|].
  destruct k as [|k]; simpl in Hk |- *.
  - injection Hk as ->.
    rewrite accumulate_testbit_outside by lia.
    rewrite Z.lor_spec, Z.shiftl_spec by lia. do 2 f_equal. lia.
  - replace (shift + 2 * Z.of_nat (S k) + t)
      with (shift + 2 + 2 * Z.of_nat k + t) by lia.
    rewrite (IH _ _ _ c) by (done || lia).
    rewrite Z.lor_spec, shifted_code_testbit by lia.
    by rewrite orb_false_r.
Qed.

Lemma chunk_lookup seq seqLen i k :
  0 <= i -> 0 <= k < symbols_in_word seqLen i ->
  chunk seq seqLen i !! Z.to_nat k = seq !! Z.to_nat (16 * i + k).
Proof.
  intros Hi Hk. unfold chunk.
  rewrite lookup_take_lt by lia. rewrite lookup_drop. f_equal. lia.
Qed.

Lemma word_testbit_slot seq seqLen i k c t :
  0 <= i -> 0 <= k < symbols_in_word seqLen i ->
  seq !! Z.to_nat (16 * i + k) = Some c -> 0 <= t < 2 ->
  Z.testbit (word seq seqLen i) (2 * k + t) = Z.testbit (twoBitVal c) t.
Proof.
  intros Hi Hk Hc Ht. unfold word.
  rewrite <- (chunk_lookup seq seqLen) in Hc by done.
  pose proof (accumulate_testbit_slot _ 0 0 _ c t (Z.le_refl 0) Hc Ht) as H.
  rewrite Z2Nat.id, Z.bits_0 in H by lia. exact H.
Qed.

Lemma word_testbit_padding seq seqLen i b :
  Z.of_nat (length seq) = seqLen -> 0 <= i -> 16 * i <= seqLen ->
  2 * symbols_in_word seqLen i <= b ->
  Z.testbit (word seq seqLen i) b = false.
Proof.
  intros Hlen Hi Hstart Hb. unfold word.
  pose proof (symbols_in_word_range seqLen i Hi Hstart).
  rewrite accumulate_testbit_outside, Z.bits_0; [done|lia|].
  rewrite length_chunk by done. lia.
Qed.

(** A slot read back as a number. *)
Lemma slot_value w k v :
  0 <= k -> 0 <= v <= 3 ->
  Z.testbit w (2 * k) = Z.testbit v 0 ->
  Z.testbit w (2 * k + 1) = Z.testbit v 1 ->
  Z.land (Z.shiftr w (2 * k)) 3 = v.
Proof.
  intros Hk Hv H0 H1. apply Z.bits_inj'. intros t Ht.
  rewrite Z.land_spec, Z.shiftr_spec by done.
  destruct (decide (t = 0)) as [->|]; [by rewrite Z.add_0_l, H0, andb_true_r|].
  destruct (decide (t = 1)) as [->|].
  { by rewrite (Z.add_comm 1), H1, andb_true_r. }
  assert (Z.testbit 3 t = false) as ->.
  { apply Z.bits_above_log2; [lia|]. change (Z.log2 3) with 1. lia. }
  rewrite andb_false_r. symmetry.
  destruct (decide (v = 0)) as [->|]; [apply Z.bits_0|].
  apply Z.bits_above_log2; [lia|].
  assert (Z.log2 v <= Z.log2 3) by (apply Z.log2_le_mono; lia).
  change (Z.log2 3) with 1 in *. lia.
Qed.

(** ** What a call returns under its precondition *)

Lemma pack_words_all seq seqLen out order :
  order ≡ₚ seqZ 0 (Z.of_nat (length out)) ->
  pack_words seq seqLen out order =
    word seq seqLen <$> seqZ 0 (Z.of_nat (length out)).
Proof.
  intros Hperm. apply list_eq. intros k.
  destruct (decide (k < length out)%nat) as [Hlt|Hge].
  - rewrite (pack_words_fair _ _ _ _ _ _ Hperm Hlt).
    rewrite decide_True by lia.
    rewrite list_lookup_fmap, lookup_seqZ_lt by lia. done.
  - rewrite !lookup_ge_None_2; [done| |].
    + rewrite length_fmap, length_seqZ. lia.
    + rewrite length_pack_words. lia.
Qed.

Lemma twoBitCompress_post sigma seqLen m :
  fair sigma -> precondition (m_seq m) seqLen (m_compressedSeq m) ->
  twoBitCompress sigma seqLen m =
    Some (tt, Machine (m_seq m)
                (word (m_seq m) seqLen <$> seqZ 0 (ceil16 seqLen))
                (m_log m ++ flat_map (word_trace (m_seq m) seqLen)
                              (sigma (seqZ 0 (ceil16 seqLen))))).
Proof.
  intros Hfair [Hseq Hsize Hout].
  assert (0 <= seqLen) by lia.
  pose proof (compressedSeqLen_ceil16 seqLen) as Hn.
  rewrite twoBitCompress_spec by (done || lia).
  rewrite Z.sub_0_r, Hn by lia.
  rewrite <- Hout at 1 2. rewrite pack_words_all; [by rewrite Hout|].
  rewrite Hout. apply Hfair.
Qed.

Lemma call_post sigma seq seqLen out :
  fair sigma -> precondition seq seqLen out ->
  call sigma seq seqLen out =
    Some (Machine seq (word seq seqLen <$> seqZ 0 (ceil16 seqLen))
            (flat_map (word_trace seq seqLen)
               (sigma (seqZ 0 (ceil16 seqLen))))).
Proof.
  intros Hfair Hpre. unfold call. by rewrite twoBitCompress_post.
Qed.

(** The slot of position [16*i+k] in word [i]. *)
Lemma word_slot seq seqLen i k :
  Z.of_nat (length seq) = seqLen -> 0 <= i -> 0 <= k < 16 ->
  16 * i + k < seqLen ->
  exists c,
    seq !! Z.to_nat (16 * i + k) = Some c /\
    Z.testbit (word seq seqLen i) (2 * k) = Z.testbit (twoBitVal c) 0 /\
    Z.testbit (word seq seqLen i) (2 * k + 1) = Z.testbit (twoBitVal c) 1 /\
    Z.land (Z.shiftr (word seq seqLen i) (2 * k)) 3 = twoBitVal c.
Proof.
  intros Hseq Hi Hk Hpos.
  destruct (lookup_lt_is_Some_2 seq (Z.to_nat (16 * i + k))) as [c Hc];
    [lia|].
  exists c.
  assert (0 <= k < symbols_in_word seqLen i)
    by (unfold symbols_in_word; lia).
  pose proof (word_testbit_slot seq seqLen i k c 0) as H0.
  pose proof (word_testbit_slot seq seqLen i k c 1) as H1.
  rewrite Z.add_0_r in H0.
  split; [done|]. split; [apply H0; (done || lia)|].
  split; [apply H1; (done || lia)|].
  apply slot_value; [lia|apply twoBitVal_range| |].
  - apply H0; (done || lia).
  - apply H1; (done || lia).
Qed.

Lemma call_post_lookup seq seqLen i :
  0 <= i < ceil16 seqLen ->
  (word seq seqLen <$> seqZ 0 (ceil16 seqLen)) !! Z.to_nat i =
    Some (word seq seqLen i).
Proof.
  intros Hi. rewrite list_lookup_fmap, lookup_seqZ_lt by lia.
  simpl. by rewrite Z2Nat.id by lia.
Qed.

Lemma twoBitVal_not_ACGT c :
  c ∉ ["A"; "C"; "G"; "T"]%byte -> twoBitVal c = 0.
Proof.
  intros Hc. apply twoBitVal_other; intros ->; apply Hc; repeat constructor.
Qed.

(** The words depend on the symbols through their codes only. *)
Lemma accumulate_codes cs : forall cs' w shift,
  twoBitVal <$> cs = twoBitVal <$> cs' ->
  accumulate w shift cs = accumulate w shift cs'.
Proof.
  induction cs as [|c cs IH]; intros [|c' cs'] w shift Heq;
    try discriminate; [done|].
  simpl in *. injection Heq as Hc Hcs. rewrite Hc. by apply IH.
Qed.

Lemma word_codes seq seq' seqLen i :
  twoBitVal <$> seq = twoBitVal <$> seq' ->
  word seq seqLen i = word seq' seqLen i.
Proof.
  intros Heq. unfold word. apply accumulate_codes. unfold chunk.
  by rewrite !fmap_take, !fmap_drop, Heq.
Qed.

(** ** The log *)

Lemma loop_trace_stores i cs : forall j w shift i' w',
  EvStoreOut i' w' ∈ loop_trace i j w shift cs -> i' = i.
Proof.
  induction cs as [|c cs IH]; intros j w shift i' w' Hin; simpl in Hin.
  - by apply elem_of_nil in Hin.
  - repeat (apply elem_of_cons in Hin as [Hin|Hin]; [congruence|]).
    by eapply IH.
Qed.

Lemma word_trace_stores seq seqLen i i' w' :
  EvStoreOut i' w' ∈ word_trace seq seqLen i -> i' = i.
Proof.
  unfold word_trace. intros [Hin|Hin]%elem_of_cons; [congruence|].
  by eapply loop_trace_stores.
Qed.

Lemma elem_of_flat_map {A B} (f : A -> list B) (l : list A) (y : B) :
  y ∈ flat_map f l <-> exists x, x ∈ l /\ y ∈ f x.
Proof.
  rewrite list_elem_of_In, in_flat_map.
  by setoid_rewrite list_elem_of_In.
Qed.

(** Exactly the words of the processed indices are stored to. *)
Lemma stored_indices seq seqLen order i :
  (exists w, EvStoreOut i w ∈ flat_map (word_trace seq seqLen) order) <->
  i ∈ order.
Proof.
  split.
  - intros [w (i' & Hi' & Hin)%elem_of_flat_map].
    by apply word_trace_stores in Hin as ->.
  - intros Hi. exists 0. apply elem_of_flat_map. exists i.
    split; [done|]. apply list_elem_of_here.
Qed.

Lemma loop_trace_in_bounds seqLen numWords i cs : forall j w shift,
  0 <= i < numWords -> 0 <= j -> j + Z.of_nat (length cs) <= seqLen ->
  Forall (in_bounds seqLen numWords) (loop_trace i j w shift cs).
Proof.
  induction cs as [|c cs IH]; intros j w shift Hi Hj Hlen; simpl.
  - constructor.
  - simpl length in Hlen. repeat (constructor; [simpl; lia|]).
    apply IH; lia.
Qed.

Lemma word_trace_in_bounds seq seqLen numWords i :
  Z.of_nat (length seq) = seqLen -> 0 <= i < numWords -> 16 * i <= seqLen ->
  Forall (in_bounds seqLen numWords) (word_trace seq seqLen i).
Proof.
  intros Hseq Hi Hstart. unfold word_trace.
  constructor; [simpl; lia|].
  apply loop_trace_in_bounds; [done|lia|].
  rewrite length_chunk by (done || lia). unfold symbols_in_word. lia.
Qed.

(** ** Framing *)

Create HintDb frame.

Lemma frames_ret {A} (a : A) : frames_input (ret a).
Proof. intros m a' m' [= _ <-]. done. Qed.

Lemma frames_fail {A} : frames_input (@fail A).
Proof. intros m a m' [=]. Qed.

Lemma frames_bind {A B} (c : M A) (k : A -> M B) :
  frames_input c -> (forall a, frames_input (k a)) -> frames_input (bind c k).
Proof.
  intros Hc Hk m b m' Hrun. unfold bind in Hrun.
  destruct (c m) as [[a m1]|] eqn:Hcm; [|discriminate].
  destruct (Hc _ _ _ Hcm) as [Hseq1 Hlen1].
  destruct (Hk a _ _ _ Hrun) as [Hseq2 Hlen2].
  split; congruence.
Qed.

Lemma frames_load_seq j : frames_input (load_seq j).
Proof.
  intros m c m' Hrun. unfold load_seq in Hrun.
  destruct (0 <=? j); [|discriminate].
  destruct (m_seq m !! Z.to_nat j); [|discriminate].
  by injection Hrun as _ <-.
Qed.

Lemma frames_load_out i : frames_input (load_out i).
Proof.
  intros m w m' Hrun. unfold load_out in Hrun.
  destruct (0 <=? i); [|discriminate].
  destruct (m_compressedSeq m !! Z.to_nat i); [|discriminate].
  by injection Hrun as _ <-.
Qed.

Lemma frames_store_out i w : frames_input (store_out i w).
Proof.
  intros m u m' Hrun. unfold store_out in Hrun.
  destruct (_ && _); [|discriminate].
  injection Hrun as _ <-. simpl. by rewrite length_insert.
Qed.

Lemma frames_shl_u32 v s : frames_input (shl_u32 v s).
Proof.
  intros m w m' Hrun. unfold shl_u32 in Hrun.
  destruct (_ && _); [|discriminate].
  by injection Hrun as _ <-.
Qed.

#[local] Hint Resolve frames_ret frames_fail frames_load_seq frames_load_out
  frames_store_out frames_shl_u32 : frame.

Lemma frames_loop_body i j shift : frames_input (loop_body i j shift).
Proof. unfold loop_body. repeat (apply frames_bind; [|intros ?]); auto with frame. Qed.

Lemma frames_for_loop fuel : forall i end_ j shift,
  frames_input (for_loop fuel i end_ j shift).
Proof.
  induction fuel as [|fuel IH]; intros i end_ j shift; simpl;
    destruct (j <? end_); auto with frame.
  apply frames_bind; [apply frames_loop_body|]. intros shift'. apply IH.
Qed.

Lemma frames_lambda seqLen i : frames_input (lambda seqLen i).
Proof.
  unfold lambda. apply frames_bind; [auto with frame|].
  intros _. apply frames_for_loop.
Qed.

Lemma frames_run_all f indices :
  (forall i, frames_input (f i)) -> frames_input (run_all f indices).
Proof.
  intros Hf. induction indices as [|i indices IH]; simpl; [auto with frame|].
  apply frames_bind; [apply Hf|]. intros _. exact IH.
Qed.

Lemma frames_twoBitCompress sigma seqLen :
  frames_input (twoBitCompress sigma seqLen).
Proof.
  unfold twoBitCompress, parallel_for. apply frames_run_all.
  intros i. apply frames_lambda.
Qed.

(** ** Counting the accesses to a word *)

Lemma stores_to_app i l1 l2 :
  stores_to i (l1 ++ l2) = (stores_to i l1 + stores_to i l2)%nat.
Proof. unfold stores_to. by rewrite List.filter_app, length_app. Qed.

Lemma loads_from_app i l1 l2 :
  loads_from i (l1 ++ l2) = (loads_from i l1 + loads_from i l2)%nat.
Proof. unfold loads_from. by rewrite List.filter_app, length_app. Qed.

Lemma loop_trace_count i i' cs : forall j w shift,
  stores_to i (loop_trace i' j w shift cs) =
    (if decide (i' = i) then length cs else 0%nat) /\
  loads_from i (loop_trace i' j w shift cs) =
    (if decide (i' = i) then length cs else 0%nat).
Proof.
  induction cs as [|c cs IH]; intros j w shift.
  - simpl. by destruct (decide (i' = i)).
  - destruct (IH (j + 1) (Z.lor w (Z.shiftl (twoBitVal c) shift))
                (shift + 2)) as [IHs IHl].
    unfold stores_to, loads_from in *. simpl.
    destruct (Z.eqb_spec i' i) as [Heq|Hne]; simpl; rewrite IHs, IHl;
      [rewrite !decide_True by done|rewrite !decide_False by done]; done.
Qed.

Lemma word_trace_count seq seqLen i i' :
  stores_to i (word_trace seq seqLen i') =
    (if decide (i' = i) then S (length (chunk seq seqLen i')) else 0%nat) /\
  loads_from i (word_trace seq seqLen i') =
    (if decide (i' = i) then length (chunk seq seqLen i') else 0%nat).
Proof.
  destruct (loop_trace_count i i' (chunk seq seqLen i') (16 * i') 0 0)
    as [Hs Hl].
  unfold word_trace, stores_to, loads_from in *. simpl.
  destruct (Z.eqb_spec i' i) as [Heq|Hne]; simpl; rewrite Hs, Hl;
    [rewrite !decide_True by done|rewrite !decide_False by done]; done.
Qed.

Lemma flat_map_count seq seqLen i order :
  NoDup order ->
  stores_to i (flat_map (word_trace seq seqLen) order) =
    (if decide (i ∈ order) then S (length (chunk seq seqLen i)) else 0%nat) /\
  loads_from i (flat_map (word_trace seq seqLen) order) =
    (if decide (i ∈ order) then length (chunk seq seqLen i) else 0%nat).
Proof.
  induction 1 as [|i' order Hnin Hnodup [IHs IHl]].
  - rewrite !decide_False by apply not_elem_of_nil. done.
  - cbn [flat_map]. rewrite stores_to_app, loads_from_app, IHs, IHl.
    destruct (word_trace_count seq seqLen i i') as [-> ->].
    destruct (decide (i' = i)) as [->|Hne];
      destruct (decide (i ∈ order)) as [Hin|Hout]; try done.
    + rewrite !(decide_True (P := i ∈ i :: order))
        by apply list_elem_of_here.
      split; lia.
    + rewrite !(decide_True (P := i ∈ i' :: order))
        by by apply list_elem_of_further.
      done.
    + rewrite !(decide_False (P := i ∈ i' :: order)); [done|..];
        intros [?|?]%elem_of_cons; congruence.
Qed.

(** The last operation of an invocation stores the finished word. *)
Lemma loop_trace_last i cs : forall j w shift,
  cs <> [] ->
  exists before,
    loop_trace i j w shift cs =
      before ++ [EvStoreOut i (accumulate w shift cs)].
Proof.
  induction cs as [|c cs IH]; intros j w shift Hne; [done|].
  destruct cs as [|c' cs].
  - simpl. by eexists [_; _; _].
  - destruct (IH (j + 1) (Z.lor w (Z.shiftl (twoBitVal c) shift))
                (shift + 2)) as [before Hbefore]; [done|].
    eexists (_ :: _ :: _ :: _ :: before).
    cbn [loop_trace accumulate] in *. rewrite Hbefore. reflexivity.
Qed.

Lemma word_trace_last seq seqLen i :
  exists before,
    word_trace seq seqLen i = before ++ [EvStoreOut i (word seq seqLen i)].
Proof.
  unfold word_trace, word. destruct (chunk seq seqLen i) as [|c cs] eqn:Hc.
  - by exists [].
  - destruct (loop_trace_last i (c :: cs) (16 * i) 0 0) as [before ->];
      [done|].
    by exists (EvStoreOut i 0 :: before).
Qed.

(** The operations on word [i] form one block of the log: those of the
    invocation for [i]. *)
Lemma flat_map_block seq seqLen i order :
  NoDup order -> i ∈ order ->
  exists before after,
    flat_map (word_trace seq seqLen) order =
      before ++ word_trace seq seqLen i ++ after /\
    stores_to i before = 0%nat /\ stores_to i after = 0%nat.
Proof.
  intros Hnodup (o1 & o2 & ->)%list_elem_of_split.
  apply NoDup_app in Hnodup as (Hnodup1 & Hnin1 & [Hnin2 Hnodup2]%NoDup_cons).
  exists (flat_map (word_trace seq seqLen) o1),
         (flat_map (word_trace seq seqLen) o2).
  split; [by rewrite flat_map_app|].
  destruct (flat_map_count seq seqLen i o1 Hnodup1) as [-> _].
  destruct (flat_map_count seq seqLen i o2 Hnodup2) as [-> _].
  rewrite !decide_False; [done|done|].
  intros Hin. apply (Hnin1 i Hin). apply list_elem_of_here.
Qed.

(** ** The shifts *)

Lemma shift_of_symbol_prefix l before v s :
  shift_of_symbol before v s -> shift_of_symbol (l ++ before) v s.
Proof.
  intros (before' & i & j & c & -> & Hrest).
  exists (l ++ before'), i, j, c. by rewrite <- app_assoc.
Qed.

(** A shift found in the operations of the inner loop belongs to one of
    its iterations; otherwise it lies in what follows them. *)
Lemma loop_trace_shift i cs : forall j w shift rest before v s after,
  loop_trace i j w shift cs ++ rest = before ++ EvShl v s :: after ->
  (exists before' k c,
     cs !! k = Some c /\
     before = before' ++ [EvLoadSeq (j + Z.of_nat k) c] /\
     v = twoBitVal c /\ s = shift + 2 * Z.of_nat k) \/
  (exists before2,
     before = loop_trace i j w shift cs ++ before2 /\
     rest = before2 ++ EvShl v s :: after).
Proof.
  induction cs as [|c cs IH]; intros j w shift rest before v s after Heq.
  - right. by exists before.
  - cbn [loop_trace] in Heq. simpl in Heq.
    destruct before as [|e1 before]; [discriminate|].
    injection Heq as <- Heq.
    destruct before as [|e2 before].
    { injection Heq as <- <- <-. left. exists [], 0%nat, c. simpl.
      rewrite Z.add_0_r. repeat split; lia. }
    injection Heq as <- Heq.
    destruct before as [|e3 before]; [discriminate|].
    injection Heq as <- Heq.
    destruct before as [|e4 before]; [discriminate|].
    injection Heq as <- Heq.
    destruct (IH _ _ _ _ _ _ _ _ Heq)
      as [(before' & k & c' & Hk & -> & -> & ->)|(before2 & -> & ->)].
    + left. eexists (_ :: _ :: _ :: _ :: before'), (S k), c'.
      replace (j + Z.of_nat (S k)) with (j + 1 + Z.of_nat k) by lia.
      repeat split; [done|lia].
    + right. by exists before2.
Qed.

Lemma flat_map_shift seq seqLen order :
  Z.of_nat (length seq) = seqLen ->
  Forall (fun i => 0 <= i /\ 16 * i <= seqLen) order ->
  forall before v s after,
    flat_map (word_trace seq seqLen) order = before ++ EvShl v s :: after ->
    shift_of_symbol before v s.
Proof.
  intros Hseq. induction 1 as [|i order [Hi Hstart] Hall IH];
    intros before v s after Heq.
  - by destruct before.
  - cbn [flat_map] in Heq. unfold word_trace in Heq. simpl in Heq.
    destruct before as [|e before]; [discriminate|].
    injection Heq as <- Heq.
    apply loop_trace_shift in Heq
      as [(before' & k & c & Hk & -> & -> & ->)|(before2 & -> & Heq)].
    + exists (EvStoreOut i 0 :: before'), i, (16 * i + Z.of_nat k), c.
      pose proof (lookup_lt_Some _ _ _ Hk) as Hlt.
      pose proof (length_chunk seq seqLen i Hseq Hi Hstart) as Hlen.
      pose proof (symbols_in_word_range seqLen i Hi Hstart).
      repeat split; lia.
    + apply (shift_of_symbol_prefix (EvStoreOut i 0 :: _)). by eapply IH.
Qed.

(** The iteration of the [k]-th symbol reads it and then shifts its code. *)
Lemma loop_trace_iteration i cs : forall j w shift k c,
  cs !! k = Some c ->
  exists before after,
    loop_trace i j w shift cs =
      before ++ EvLoadSeq (j + Z.of_nat k) c
             :: EvShl (twoBitVal c) (shift + 2 * Z.of_nat k) :: after.
Proof.
  induction cs as [|c' cs IH]; intros j w shift k c Hk; [done|].
  destruct k as [|k]; simpl in Hk.
  - injection Hk as ->. eexists [], _. simpl.
    by rewrite !Z.add_0_r.
  - destruct (IH (j + 1) (Z.lor w (Z.shiftl (twoBitVal c') shift))
                (shift + 2) k c Hk) as (before & after & Heq).
    eexists (_ :: _ :: _ :: _ :: before), after.
    replace (j + Z.of_nat (S k)) with (j + 1 + Z.of_nat k) by lia.
    replace (shift + 2 * Z.of_nat (S k)) with (shift + 2 + 2 * Z.of_nat k)
      by lia.
    cbn [loop_trace]. by rewrite Heq.
Qed.

Lemma flat_map_iteration seq seqLen order i k c :
  i ∈ order -> chunk seq seqLen i !! k = Some c ->
  exists before after,
    flat_map (word_trace seq seqLen) order =
      before ++ EvLoadSeq (16 * i + Z.of_nat k) c
             :: EvShl (twoBitVal c) (2 * Z.of_nat k) :: after.
Proof.
  intros (o1 & o2 & ->)%list_elem_of_split Hk.
  destruct (loop_trace_iteration i _ (16 * i) 0 0 k c Hk)
    as (before & after & Heq).
  exists (flat_map (word_trace seq seqLen) o1 ++ EvStoreOut i 0 :: before),
         (after ++ flat_map (word_trace seq seqLen) o2).
  rewrite flat_map_app. cbn [flat_map]. unfold word_trace. rewrite Heq.
  rewrite <- !app_assoc. simpl. by rewrite <- !app_assoc.
Qed.

(** ** Adequacy of the model of [uint32_t] cells *)

Lemma lor_u32 a b :
  0 <= a <= UINT32_MAX -> 0 <= b <= UINT32_MAX ->
  0 <= Z.lor a b <= UINT32_MAX.
Proof.
  unfold UINT32_MAX. intros Ha Hb.
  assert (0 <= Z.lor a b) as Hpos by (apply Z.lor_nonneg; lia).
  split; [done|].
  destruct (decide (Z.lor a b = 0)) as [->|Hne]; [lia|].
  enough (Z.lor a b < 2 ^ 32) by lia.
  assert (forall x, 0 <= x <= 2 ^ 32 - 1 -> Z.log2 x < 32) as Hlog.
  { intros x Hx. destruct (decide (x = 0)) as [->|]; [done|].
    apply Z.log2_lt_pow2; lia. }
  apply Z.log2_lt_pow2; [lia|]. rewrite Z.log2_lor by lia.
  apply Z.max_lub_lt; by apply Hlog.
Qed.

(** Every value the inner loop stores is a [uint32_t]: storing it does
    not truncate. *)
Lemma loop_trace_stores_u32 i cs : forall j w shift,
  0 <= w <= UINT32_MAX -> 0 <= shift ->
  shift + 2 * Z.of_nat (length cs) <= 32 ->
  Forall (fun e => match e with
                   | EvStoreOut _ w' => 0 <= w' <= UINT32_MAX
                   | _ => True
                   end) (loop_trace i j w shift cs).
Proof.
  induction cs as [|c cs IH]; intros j w shift Hw Hs Hlen; simpl.
  - constructor.
  - simpl length in Hlen.
    assert (0 <= Z.lor w (Z.shiftl (twoBitVal c) shift) <= UINT32_MAX).
    { apply lor_u32; [done|].
      rewrite <- (shifted_code_fits (twoBitVal c) shift)
        by (apply twoBitVal_range || lia).
      unfold wrap_u32, UINT32_MAX.
      pose proof (Z.mod_pos_bound (Z.shiftl (twoBitVal c) shift) (2 ^ 32)).
      lia. }
    repeat (constructor; [done|]). apply IH; lia.
Qed.

(** The precondition on [seqLen] says that [seqLen + 15] does not wrap;
    two buffers that fit together in the address space satisfy it. *)
Lemma buffers_fit_no_wrap seqLen :
  0 <= seqLen -> seqLen + 4 * ceil16 seqLen <= SIZE_MAX ->
  seqLen + 15 <= SIZE_MAX.
Proof.
  intros Hpos Hfit. pose proof (ceil16_spec seqLen) as Hceil.
  unfold SIZE_MAX in *. lia.
Qed.

(** * The claims *)

(** C1. Word layout: after a call, for every word index [i] below
    [ceil(seqLen/16)] and every [k] in [0,16) with [16*i+k < seqLen], bits
    [2k] and [2k+1] of output word [i] are bits 0 and 1 of the code of the
    symbol at position [16*i+k] (so the slot read as a number is that
    code), the codes being A=0, C=1, G=2, T=3 and 0 for any other byte;
    the bits of word [i] above its last symbol's slot are 0. *)
Theorem word_layout sigma seq seqLen compressedSeq :
  fair sigma -> precondition seq seqLen compressedSeq ->
  exists m, call sigma seq seqLen compressedSeq = Some m /\
    (forall i k, 0 <= i < ceil16 seqLen -> 0 <= k < 16 ->
       16 * i + k < seqLen ->
       exists w c,
         m_compressedSeq m !! Z.to_nat i = Some w /\
         seq !! Z.to_nat (16 * i + k) = Some c /\
         Z.testbit w (2 * k) = Z.testbit (twoBitVal c) 0 /\
         Z.testbit w (2 * k + 1) = Z.testbit (twoBitVal c) 1 /\
         Z.land (Z.shiftr w (2 * k)) 3 = twoBitVal c) /\
    (forall i w b, 0 <= i < ceil16 seqLen ->
       m_compressedSeq m !! Z.to_nat i = Some w ->
       2 * (Z.min seqLen (16 * i + 16) - 16 * i) <= b ->
       Z.testbit w b = false) /\
    twoBitVal "A" = 0 /\ twoBitVal "C" = 1 /\
    twoBitVal "G" = 2 /\ twoBitVal "T" = 3 /\
    (forall c, c ∉ ["A"; "C"; "G"; "T"]%byte -> twoBitVal c = 0).
Proof.
  intros Hfair Hpre. pose proof Hpre as [Hseq Hsize Hout].
  eexists. split; [by apply call_post|]. simpl.
  pose proof (ceil16_spec seqLen) as Hceil.
  split; [|split].
  - intros i k Hi Hk Hpos.
    destruct (word_slot seq seqLen i k) as (c & Hc & H0 & H1 & Hv);
      [done|lia..|].
    exists (word seq seqLen i), c. by rewrite call_post_lookup.
  - intros i w b Hi Hw Hb.
    rewrite call_post_lookup in Hw by done. injection Hw as <-.
    apply word_testbit_padding; (done || lia).
  - repeat split; try reflexivity. apply twoBitVal_not_ACGT.
Qed.

Lemma word_layout_witness :
  fair in_order /\ precondition ["G"; "A"; "C"; "T"]%byte 4 [0] /\
  exists m, call in_order ["G"; "A"; "C"; "T"]%byte 4 [0] = Some m /\
    (forall i k, 0 <= i < ceil16 4 -> 0 <= k < 16 ->
       16 * i + k < 4 ->
       exists w c,
         m_compressedSeq m !! Z.to_nat i = Some w /\
         ["G"; "A"; "C"; "T"]%byte !! Z.to_nat (16 * i + k) = Some c /\
         Z.testbit w (2 * k) = Z.testbit (twoBitVal c) 0 /\
         Z.testbit w (2 * k + 1) = Z.testbit (twoBitVal c) 1 /\
         Z.land (Z.shiftr w (2 * k)) 3 = twoBitVal c) /\
    (forall i w b, 0 <= i < ceil16 4 ->
       m_compressedSeq m !! Z.to_nat i = Some w ->
       2 * (Z.min 4 (16 * i + 16) - 16 * i) <= b ->
       Z.testbit w b = false) /\
    twoBitVal "A" = 0 /\ twoBitVal "C" = 1 /\
    twoBitVal "G" = 2 /\ twoBitVal "T" = 3 /\
    (forall c, c ∉ ["A"; "C"; "G"; "T"]%byte -> twoBitVal c = 0).
Proof.
  assert (fair in_order) as Hfair by (intros l; reflexivity).
  assert (precondition ["G"; "A"; "C"; "T"]%byte 4 [0]) as Hpre
    by (constructor; vm_compute; congruence).
  split; [exact Hfair|]. split; [exact Hpre|].
  exact (word_layout in_order ["G"; "A"; "C"; "T"]%byte 4 [0] Hfair Hpre).
Defined.

(** C2. The worked example of the source: "GACT" is packed into one word
    whose value is 210, binary 11010010. *)
Theorem gact_is_210 sigma w0 :
  fair sigma ->
  compressedSeqLen 4 = 1 /\
  exists m, call sigma ["G"; "A"; "C"; "T"]%byte 4 [w0] = Some m /\
    m_compressedSeq m = [210] /\
    Z.testbit 210 <$> [7; 6; 5; 4; 3; 2; 1; 0] =
      [true; true; false; true; false; false; true; false] /\
    210 < 2 ^ 8.
Proof.
  intros Hfair. split; [reflexivity|].
  assert (precondition ["G"; "A"; "C"; "T"]%byte 4 [w0]) as Hpre
    by (constructor; vm_compute; congruence).
  eexists. split; [by apply call_post|].
  split; [reflexivity|]. split; [reflexivity|lia].
Qed.

Lemma gact_is_210_witness :
  fair in_order /\
  compressedSeqLen 4 = 1 /\
  exists m, call in_order ["G"; "A"; "C"; "T"]%byte 4 [77] = Some m /\
    m_compressedSeq m = [210] /\
    Z.testbit 210 <$> [7; 6; 5; 4; 3; 2; 1; 0] =
      [true; true; false; true; false; false; true; false] /\
    210 < 2 ^ 8.
Proof.
  assert (fair in_order) as Hfair by (intros l; reflexivity).
  split; [exact Hfair|]. exact (gact_is_210 in_order 77 Hfair).
Defined.

(** C3. A byte other than A, C, G, T raises no error and is packed as
    code 00, exactly as an 'A' at its position would be: the call returns,
    the slot of that position holds 0, and the whole output buffer equals
    the one obtained from the sequence with 'A' at that position. *)
Theorem other_byte_as_A sigma seq seqLen compressedSeq p c :
  fair sigma -> precondition seq seqLen compressedSeq ->
  seq !! p = Some c -> c ∉ ["A"; "C"; "G"; "T"]%byte ->
  exists m w,
    call sigma seq seqLen compressedSeq = Some m /\
    m_compressedSeq m !! (p / 16)%nat = Some w /\
    Z.land (Z.shiftr w (2 * (Z.of_nat p mod 16))) 3 = 0 /\
    m_compressedSeq <$> call sigma (<[p := "A"%byte]> seq) seqLen compressedSeq
      = Some (m_compressedSeq m).
Proof.
  intros Hfair Hpre Hp Hc. pose proof Hpre as [Hseq Hsize Hout].
  pose proof (lookup_lt_Some _ _ _ Hp) as Hlt.
  pose proof (ceil16_spec seqLen) as Hceil.
  destruct (word_slot seq seqLen (Z.of_nat p / 16) (Z.of_nat p mod 16))
    as (c' & Hc' & _ & _ & Hval); [done|lia..|].
  replace (16 * (Z.of_nat p / 16) + Z.of_nat p mod 16) with (Z.of_nat p)
    in Hc' by lia.
  rewrite Nat2Z.id, Hp in Hc'. injection Hc' as <-.
  eexists _, (word seq seqLen (Z.of_nat p / 16)).
  split; [by apply call_post|]. simpl. split.
  { rewrite <- call_post_lookup by lia. f_equal.
    rewrite Z2Nat.inj_div by lia. by rewrite Nat2Z.id. }
  split; [by rewrite Hval, twoBitVal_not_ACGT|].
  rewrite call_post; [|done|by constructor; rewrite ?length_insert].
  simpl. f_equal. apply list_fmap_ext. intros _ i _.
  apply word_codes. rewrite list_fmap_insert.
  apply list_insert_id. rewrite list_lookup_fmap, Hp. simpl.
  by rewrite (twoBitVal_not_ACGT c).
Qed.

Lemma other_byte_as_A_witness :
  fair in_order /\ precondition ["G"; "N"; "C"; "T"]%byte 4 [0] /\
  ["G"; "N"; "C"; "T"]%byte !! 1%nat = Some "N"%byte /\
  ("N"%byte ∉ ["A"; "C"; "G"; "T"]%byte) /\
  exists m w,
    call in_order ["G"; "N"; "C"; "T"]%byte 4 [0] = Some m /\
    m_compressedSeq m !! (1 / 16)%nat = Some w /\
    Z.land (Z.shiftr w (2 * (Z.of_nat 1 mod 16))) 3 = 0 /\
    m_compressedSeq <$>
      call in_order (<[1%nat := "A"%byte]> ["G"; "N"; "C"; "T"]%byte) 4 [0]
      = Some (m_compressedSeq m).
Proof.
  assert (fair in_order) as Hfair by (intros l; reflexivity).
  assert (precondition ["G"; "N"; "C"; "T"]%byte 4 [0]) as Hpre
    by (constructor; vm_compute; congruence).
  assert ("N"%byte ∉ ["A"; "C"; "G"; "T"]%byte) as Hn
    by (intros H; repeat (apply elem_of_cons in H as [H|H];
          [discriminate H|]); by apply elem_of_nil in H).
  split; [exact Hfair|]. split; [exact Hpre|].
  split; [reflexivity|]. split; [exact Hn|].
  exact (other_byte_as_A in_order ["G"; "N"; "C"; "T"]%byte 4 [0] 1 "N"%byte
           Hfair Hpre eq_refl Hn).
Defined.

(** C4. Word count: [numWords] is [ceil(seqLen/16)] - the least [n] with
    [seqLen <= 16*n] - and exactly the words of index below it are stored
    to, whatever lies behind them in the buffer being left as it was;
    lengths 0, 1, 15, 16, 17 give 0, 1, 1, 1, 2 words, and for length 0
    nothing at all is done. *)
Theorem word_count sigma seq seqLen compressedSeq :
  fair sigma -> Z.of_nat (length seq) = seqLen -> seqLen + 15 <= SIZE_MAX ->
  ceil16 seqLen <= Z.of_nat (length compressedSeq) ->
  compressedSeqLen seqLen = ceil16 seqLen /\
  16 * (ceil16 seqLen - 1) < seqLen <= 16 * ceil16 seqLen /\
  (exists m, call sigma seq seqLen compressedSeq = Some m /\
     (forall i, (exists w, EvStoreOut i w ∈ m_log m) <->
                0 <= i < ceil16 seqLen) /\
     length (m_compressedSeq m) = length compressedSeq /\
     (forall k, ceil16 seqLen <= Z.of_nat k ->
                m_compressedSeq m !! k = compressedSeq !! k) /\
     (seqLen = 0 -> m = Machine seq compressedSeq [])) /\
  compressedSeqLen 0 = 0 /\ compressedSeqLen 1 = 1 /\
  compressedSeqLen 15 = 1 /\ compressedSeqLen 16 = 1 /\
  compressedSeqLen 17 = 2.
Proof.
  intros Hfair Hseq Hsize Hout.
  assert (0 <= seqLen) as Hpos by lia.
  pose proof (compressedSeqLen_ceil16 seqLen Hpos Hsize) as Hn.
  split; [done|]. split; [apply ceil16_spec|].
  split; [|by repeat split].
  eexists. split; [apply call_spec; (done || lia)|]. simpl.
  rewrite Z.sub_0_r, Hn.
  pose proof (Hfair (seqZ 0 (ceil16 seqLen))) as Hperm.
  split; [|split; [|split]].
  - intros i. rewrite stored_indices, Hperm, elem_of_seqZ. lia.
  - apply length_pack_words.
  - intros k Hk.
    destruct (decide (k < length compressedSeq)%nat) as [Hlt|Hge].
    + rewrite (pack_words_fair _ _ _ _ _ _ Hperm Hlt).
      by rewrite decide_False by lia.
    + rewrite !lookup_ge_None_2; [done|lia|].
      rewrite length_pack_words. lia.
  - intros ->. change (seqZ 0 (ceil16 0)) with (@nil Z) in *.
    apply Permutation_nil_r in Hperm. by rewrite Hperm.
Qed.

Lemma word_count_witness :
  fair backwards /\ Z.of_nat (length (replicate 17 "T"%byte)) = 17 /\
  17 + 15 <= SIZE_MAX /\ ceil16 17 <= Z.of_nat (length [5; 6; 7]) /\
  compressedSeqLen 17 = ceil16 17 /\
  16 * (ceil16 17 - 1) < 17 <= 16 * ceil16 17 /\
  (exists m, call backwards (replicate 17 "T"%byte) 17 [5; 6; 7] = Some m /\
     (forall i, (exists w, EvStoreOut i w ∈ m_log m) <->
                0 <= i < ceil16 17) /\
     length (m_compressedSeq m) = length [5; 6; 7] /\
     (forall k, ceil16 17 <= Z.of_nat k ->
                m_compressedSeq m !! k = [5; 6; 7] !! k) /\
     (17 = 0 -> m = Machine (replicate 17 "T"%byte) [5; 6; 7] [])) /\
  compressedSeqLen 0 = 0 /\ compressedSeqLen 1 = 1 /\
  compressedSeqLen 15 = 1 /\ compressedSeqLen 16 = 1 /\
  compressedSeqLen 17 = 2.
Proof.
  assert (fair backwards) as Hfair
    by (intros l; unfold backwards; apply reverse_Permutation).
  assert (17 + 15 <= SIZE_MAX) as Hsize by (vm_compute; congruence).
  assert (ceil16 17 <= Z.of_nat (length [5; 6; 7])) as Hout
    by (vm_compute; congruence).
  split; [exact Hfair|]. split; [reflexivity|].
  split; [exact Hsize|]. split; [exact Hout|].
  exact (word_count backwards (replicate 17 "T"%byte) 17 [5; 6; 7]
           Hfair eq_refl Hsize Hout).
Defined.

(** C5. Tail padding: when [seqLen] is not a multiple of 16, every bit of
    the last output word at position [2*(seqLen mod 16)] or above is 0. *)
Theorem tail_padding sigma seq seqLen compressedSeq :
  fair sigma -> precondition seq seqLen compressedSeq ->
  seqLen mod 16 <> 0 ->
  exists m w,
    call sigma seq seqLen compressedSeq = Some m /\
    last (m_compressedSeq m) = Some w /\
    m_compressedSeq m !! Z.to_nat (ceil16 seqLen - 1) = Some w /\
    forall b, 2 * (seqLen mod 16) <= b -> Z.testbit w b = false.
Proof.
  intros Hfair Hpre Hmod. pose proof Hpre as [Hseq Hsize Hout].
  pose proof (ceil16_spec seqLen) as Hceil.
  assert (ceil16 seqLen - 1 = seqLen / 16) as Hlast.
  { unfold ceil16. destruct (Z.eqb_spec (seqLen mod 16) 0); lia. }
  eexists _, (word seq seqLen (ceil16 seqLen - 1)).
  split; [by apply call_post|]. simpl.
  assert ((word seq seqLen <$> seqZ 0 (ceil16 seqLen))
            !! Z.to_nat (ceil16 seqLen - 1)
          = Some (word seq seqLen (ceil16 seqLen - 1))) as Hw
    by (apply call_post_lookup; lia).
  split; [|split; [done|]].
  - rewrite last_lookup, length_fmap, length_seqZ, <- Hw. f_equal. lia.
  - intros b Hb. apply word_testbit_padding; [done|lia|lia|].
    unfold symbols_in_word. lia.
Qed.

Lemma tail_padding_witness :
  fair in_order /\ precondition ["G"; "A"; "C"; "T"]%byte 4 [0] /\
  4 mod 16 <> 0 /\
  exists m w,
    call in_order ["G"; "A"; "C"; "T"]%byte 4 [0] = Some m /\
    last (m_compressedSeq m) = Some w /\
    m_compressedSeq m !! Z.to_nat (ceil16 4 - 1) = Some w /\
    forall b, 2 * (4 mod 16) <= b -> Z.testbit w b = false.
Proof.
  assert (fair in_order) as Hfair by (intros l; reflexivity).
  assert (precondition ["G"; "A"; "C"; "T"]%byte 4 [0]) as Hpre
    by (constructor; vm_compute; congruence).
  assert (4 mod 16 <> 0) as Hmod by (vm_compute; congruence).
  split; [exact Hfair|]. split; [exact Hpre|]. split; [exact Hmod|].
  exact (tail_padding in_order ["G"; "A"; "C"; "T"]%byte 4 [0]
           Hfair Hpre Hmod).
Defined.

(** C6, as the code has it.  Word [i] is not written once: the lambda
    accumulates in [compressedSeq[i]] itself.  During a call each word
    index [i] below [ceil(seqLen/16)] is written [1 + n] times and read [n]
    times, [n = min(seqLen, 16*i+16) - 16*i] being the number of symbols of
    the word.  All these writes are those of one invocation of the lambda,
    the one for [i]: its operations form one block of the log, no write to
    word [i] comes before or after the block, and the last operation of the
    block stores the value the word has when the call returns. *)
Theorem stores_per_word sigma seq seqLen compressedSeq :
  fair sigma -> precondition seq seqLen compressedSeq ->
  exists m, call sigma seq seqLen compressedSeq = Some m /\
    forall i, 0 <= i < ceil16 seqLen ->
      Z.of_nat (stores_to i (m_log m)) =
        1 + (Z.min seqLen (16 * i + 16) - 16 * i) /\
      Z.of_nat (loads_from i (m_log m)) =
        Z.min seqLen (16 * i + 16) - 16 * i /\
      exists before block after w,
        m_log m = before ++ block ++ after /\
        lambda seqLen i (Machine seq compressedSeq []) =
          Some (tt, Machine seq (<[Z.to_nat i := w]> compressedSeq) block) /\
        stores_to i before = 0%nat /\ stores_to i after = 0%nat /\
        last block = Some (EvStoreOut i w) /\
        m_compressedSeq m !! Z.to_nat i = Some w.
Proof.
  intros Hfair Hpre. pose proof Hpre as [Hseq Hsize Hout].
  pose proof (ceil16_spec seqLen) as Hceil.
  eexists. split; [by apply call_post|]. simpl. intros i Hi.
  pose proof (Hfair (seqZ 0 (ceil16 seqLen))) as Hperm.
  assert (NoDup (sigma (seqZ 0 (ceil16 seqLen)))) as Hnodup
    by (rewrite Hperm; apply NoDup_seqZ).
  assert (i ∈ sigma (seqZ 0 (ceil16 seqLen))) as Hin
    by (rewrite Hperm, elem_of_seqZ; lia).
  destruct (flat_map_count seq seqLen i _ Hnodup) as [-> ->].
  rewrite !decide_True by done.
  pose proof (length_chunk seq seqLen i Hseq) as Hlen.
  unfold symbols_in_word in Hlen.
  split; [lia|]. split; [lia|].
  destruct (flat_map_block seq seqLen i _ Hnodup Hin)
    as (before & after & Hlog & Hbefore & Hafter).
  exists before, (word_trace seq seqLen i), after, (word seq seqLen i).
  split; [done|]. split.
  { rewrite lambda_spec; simpl; [done|lia|done| |lia].
    rewrite compressedSeqLen_ceil16; lia. }
  split; [done|]. split; [done|]. split.
  { destruct (word_trace_last seq seqLen i) as [l ->]. apply last_snoc. }
  by apply call_post_lookup.
Qed.

Lemma stores_per_word_witness :
  fair in_order /\ precondition ["G"; "A"; "C"; "T"]%byte 4 [0] /\
  exists m, call in_order ["G"; "A"; "C"; "T"]%byte 4 [0] = Some m /\
    forall i, 0 <= i < ceil16 4 ->
      Z.of_nat (stores_to i (m_log m)) =
        1 + (Z.min 4 (16 * i + 16) - 16 * i) /\
      Z.of_nat (loads_from i (m_log m)) =
        Z.min 4 (16 * i + 16) - 16 * i /\
      exists before block after w,
        m_log m = before ++ block ++ after /\
        lambda 4 i (Machine ["G"; "A"; "C"; "T"]%byte [0] []) =
          Some (tt, Machine ["G"; "A"; "C"; "T"]%byte
                      (<[Z.to_nat i := w]> [0]) block) /\
        stores_to i before = 0%nat /\ stores_to i after = 0%nat /\
        last block = Some (EvStoreOut i w) /\
        m_compressedSeq m !! Z.to_nat i = Some w.
Proof.
  assert (fair in_order) as Hfair by (intros l; reflexivity).
  assert (precondition ["G"; "A"; "C"; "T"]%byte 4 [0]) as Hpre
    by (constructor; vm_compute; congruence).
  split; [exact Hfair|]. split; [exact Hpre|].
  exact (stores_per_word in_order ["G"; "A"; "C"; "T"]%byte 4 [0]
           Hfair Hpre).
Defined.

(** C6, as stated, fails: packing "GACT" writes word 0 five times (and
    reads it back four times), not once. *)
Lemma single_store_refuted :
  exists m, call in_order ["G"; "A"; "C"; "T"]%byte 4 [0] = Some m /\
    stores_to 0 (m_log m) = 5%nat /\
    stores_to 0 (m_log m) <> 1%nat /\
    loads_from 0 (m_log m) = 4%nat.
Proof. eexists. split; [reflexivity|]. by vm_compute. Qed.

(** C7. Determinism: two calls on the same sequence, into two output
    buffers with whatever contents and under whatever two orders of the
    outer iterations, leave the same words; a second call on the state the
    first one left changes no word; for the empty sequence no word is
    produced and nothing is done. *)
Theorem output_is_deterministic sigma1 sigma2 seq seqLen out1 out2 :
  fair sigma1 -> fair sigma2 ->
  precondition seq seqLen out1 -> precondition seq seqLen out2 ->
  exists m1 m2 m3,
    call sigma1 seq seqLen out1 = Some m1 /\
    call sigma2 seq seqLen out2 = Some m2 /\
    m_compressedSeq m1 = m_compressedSeq m2 /\
    twoBitCompress sigma2 seqLen m1 = Some (tt, m3) /\
    m_compressedSeq m3 = m_compressedSeq m1 /\
    (seqLen = 0 -> m1 = Machine seq out1 [] /\ out1 = []).
Proof.
  intros Hfair1 Hfair2 Hpre1 Hpre2.
  pose proof Hpre1 as [Hseq Hsize Hout].
  do 3 eexists. split; [by apply call_post|]. split; [by apply call_post|].
  split; [done|]. split.
  - apply twoBitCompress_post; [done|]. simpl.
    constructor; [done..|]. rewrite length_fmap, length_seqZ.
    pose proof (ceil16_spec seqLen). lia.
  - split; [done|]. intros ->.
    assert (out1 = []) as ->
      by (apply nil_length_inv; change (ceil16 0) with 0 in Hout; lia).
    change (seqZ 0 (ceil16 0)) with (@nil Z).
    pose proof (Hfair1 []) as ->%Permutation_nil_r. done.
Qed.

Lemma output_is_deterministic_witness :
  fair in_order /\ fair backwards /\
  precondition (replicate 17 "G"%byte) 17 [5; 6] /\
  precondition (replicate 17 "G"%byte) 17 [0; 9] /\
  exists m1 m2 m3,
    call in_order (replicate 17 "G"%byte) 17 [5; 6] = Some m1 /\
    call backwards (replicate 17 "G"%byte) 17 [0; 9] = Some m2 /\
    m_compressedSeq m1 = m_compressedSeq m2 /\
    twoBitCompress backwards 17 m1 = Some (tt, m3) /\
    m_compressedSeq m3 = m_compressedSeq m1 /\
    (17 = 0 -> m1 = Machine (replicate 17 "G"%byte) [5; 6] [] /\ [5; 6] = []).
Proof.
  assert (fair in_order) as Hfair1 by (intros l; reflexivity).
  assert (fair backwards) as Hfair2
    by (intros l; unfold backwards; apply reverse_Permutation).
  assert (precondition (replicate 17 "G"%byte) 17 [5; 6]) as Hpre1
    by (constructor; vm_compute; congruence).
  assert (precondition (replicate 17 "G"%byte) 17 [0; 9]) as Hpre2
    by (constructor; vm_compute; congruence).
  split; [exact Hfair1|]. split; [exact Hfair2|].
  split; [exact Hpre1|]. split; [exact Hpre2|].
  exact (output_is_deterministic in_order backwards (replicate 17 "G"%byte)
           17 [5; 6] [0; 9] Hfair1 Hfair2 Hpre1 Hpre2).
Defined.

(** C8. Frame: a call changes nothing but the words of the output buffer.
    Under the precondition it returns with [seq] as it was and the output
    buffer at its length; and from any state, for any arguments and any
    scheduler, a call that returns has left [seq] and the length of the
    output buffer unchanged.  (The machine state has no other component:
    the program has no global and allocates nothing.) *)
Theorem only_output_is_mutated sigma seq seqLen compressedSeq :
  fair sigma -> precondition seq seqLen compressedSeq ->
  (exists m, call sigma seq seqLen compressedSeq = Some m /\
     m_seq m = seq /\
     length (m_compressedSeq m) = length compressedSeq) /\
  (forall (sched : scheduler) (n : Z) (m0 m1 : machine),
     twoBitCompress sched n m0 = Some (tt, m1) ->
     m_seq m1 = m_seq m0 /\
     length (m_compressedSeq m1) = length (m_compressedSeq m0)).
Proof.
  intros Hfair Hpre. split.
  - pose proof (twoBitCompress_post sigma seqLen
                  (Machine seq compressedSeq []) Hfair Hpre) as Hrun.
    destruct (frames_twoBitCompress sigma seqLen _ _ _ Hrun) as [Hs Hl].
    eexists. split; [by apply call_post|]. done.
  - intros sched n m0 m1 Hrun.
    exact (frames_twoBitCompress sched n _ _ _ Hrun).
Qed.

Lemma only_output_is_mutated_witness :
  fair in_order /\ precondition ["G"; "A"; "C"; "T"]%byte 4 [77] /\
  (exists m, call in_order ["G"; "A"; "C"; "T"]%byte 4 [77] = Some m /\
     m_seq m = ["G"; "A"; "C"; "T"]%byte /\
     length (m_compressedSeq m) = length [77]) /\
  (forall (sched : scheduler) (n : Z) (m0 m1 : machine),
     twoBitCompress sched n m0 = Some (tt, m1) ->
     m_seq m1 = m_seq m0 /\
     length (m_compressedSeq m1) = length (m_compressedSeq m0)).
Proof.
  assert (fair in_order) as Hfair by (intros l; reflexivity).
  assert (precondition ["G"; "A"; "C"; "T"]%byte 4 [77]) as Hpre
    by (constructor; vm_compute; congruence).
  split; [exact Hfair|]. split; [exact Hpre|].
  exact (only_output_is_mutated in_order ["G"; "A"; "C"; "T"]%byte 4 [77]
           Hfair Hpre).
Defined.

(** C9. Memory safety: when [seq] holds [seqLen] bytes and the output
    buffer exactly [ceil(seqLen/16)] words, a call performs no access
    outside them - it runs to completion in a model where an out-of-range
    access fails - and every read of [seq] it logs is at an index below
    [seqLen], every read or write of [compressedSeq] at an index below
    [ceil(seqLen/16)].  This holds for every [seqLen] a [size_t] can
    hold. *)
Theorem accesses_in_bounds sigma seq seqLen compressedSeq :
  fair sigma -> Z.of_nat (length seq) = seqLen -> seqLen <= SIZE_MAX ->
  Z.of_nat (length compressedSeq) = ceil16 seqLen ->
  exists m, call sigma seq seqLen compressedSeq = Some m /\
    forall e, e ∈ m_log m ->
      match e with
      | EvLoadSeq j _ => 0 <= j < seqLen
      | EvLoadOut i _ => 0 <= i < ceil16 seqLen
      | EvStoreOut i _ => 0 <= i < ceil16 seqLen
      | EvShl _ _ => True
      end.
Proof.
  intros Hfair Hseq Hsize Hout.
  assert (0 <= seqLen <= SIZE_MAX) as Hrange by lia.
  pose proof (compressedSeqLen_le_ceil16 seqLen Hrange) as Hn.
  eexists. split; [apply call_spec; (done || lia)|]. simpl.
  assert (Forall (in_bounds seqLen (ceil16 seqLen))
            (flat_map (word_trace seq seqLen)
               (sigma (seqZ 0 (compressedSeqLen seqLen - 0))))) as Hall.
  { apply Forall_flat_map.
    pose proof (fair_range sigma 0 (compressedSeqLen seqLen - 0) Hfair) as Hr.
    eapply Forall_impl; [exact Hr|]. intros i Hi. simpl in Hi.
    destruct (compressedSeqLen_range seqLen i Hrange) as [_ Hstart]; [lia|].
    apply word_trace_in_bounds; (done || lia). }
  intros e He. rewrite Forall_forall in Hall. apply (Hall e He).
Qed.

Lemma accesses_in_bounds_witness :
  fair backwards /\ Z.of_nat (length (replicate 17 "T"%byte)) = 17 /\
  17 <= SIZE_MAX /\ Z.of_nat (length [5; 6]) = ceil16 17 /\
  exists m, call backwards (replicate 17 "T"%byte) 17 [5; 6] = Some m /\
    forall e, e ∈ m_log m ->
      match e with
      | EvLoadSeq j _ => 0 <= j < 17
      | EvLoadOut i _ => 0 <= i < ceil16 17
      | EvStoreOut i _ => 0 <= i < ceil16 17
      | EvShl _ _ => True
      end.
Proof.
  assert (fair backwards) as Hfair
    by (intros l; unfold backwards; apply reverse_Permutation).
  assert (17 <= SIZE_MAX) as Hsize by (vm_compute; congruence).
  split; [exact Hfair|]. split; [reflexivity|].
  split; [exact Hsize|]. split; [reflexivity|].
  exact (accesses_in_bounds backwards (replicate 17 "T"%byte) 17 [5; 6]
           Hfair eq_refl Hsize eq_refl).
Defined.

(** C10. Every inner-loop iteration shifts the code of its symbol by
    [2*(j - start)], which is at most 30, so the shift is defined on 32
    bits and loses no bit.  In the log of a call: the symbol at every
    position [j] is read and its code then shifted by [2*(j - 16*(j/16))];
    and every shift directly follows the read of a symbol at some position
    [j] of a word [i] ([start = 16*i]), has that symbol's code as operand
    and [2*(j - start)] as amount, the amount lies in [0,30], and the
    32-bit result equals the product [code * 2^amount]. *)
Theorem shifts_within_width sigma seq seqLen compressedSeq :
  fair sigma -> precondition seq seqLen compressedSeq ->
  exists m, call sigma seq seqLen compressedSeq = Some m /\
    (forall j, 0 <= j < seqLen ->
       exists before c after,
         m_log m = before ++ EvLoadSeq j c
           :: EvShl (twoBitVal c) (2 * (j - 16 * (j / 16))) :: after) /\
    (forall before v s after,
       m_log m = before ++ EvShl v s :: after ->
       (exists before' i j c,
          before = before' ++ [EvLoadSeq j c] /\
          v = twoBitVal c /\
          16 * i <= j < 16 * i + 16 /\
          s = 2 * (j - 16 * i)) /\
       0 <= s <= 30 /\
       wrap_u32 (Z.shiftl v s) = v * 2 ^ s /\
       v * 2 ^ s <= UINT32_MAX).
Proof.
  intros Hfair Hpre. pose proof Hpre as [Hseq Hsize Hout].
  pose proof (ceil16_spec seqLen) as Hceil.
  pose proof (Hfair (seqZ 0 (ceil16 seqLen))) as Hperm.
  eexists. split; [by apply call_post|]. simpl. split.
  - intros j Hj.
    destruct (lookup_lt_is_Some_2 seq (Z.to_nat j)) as [c Hc]; [lia|].
    assert (0 <= j - 16 * (j / 16) < symbols_in_word seqLen (j / 16))
      as Hk by (unfold symbols_in_word; lia).
    destruct (flat_map_iteration seq seqLen (sigma (seqZ 0 (ceil16 seqLen)))
                (j / 16) (Z.to_nat (j - 16 * (j / 16))) c)
      as (before & after & Heq).
    + rewrite Hperm, elem_of_seqZ. lia.
    + rewrite chunk_lookup by lia. rewrite <- Hc. f_equal. lia.
    + rewrite Z2Nat.id in Heq by lia.
      replace (16 * (j / 16) + (j - 16 * (j / 16))) with j in Heq by lia.
      by exists before, c, after.
  - intros before v s after Hlog.
    apply flat_map_shift in Hlog as Hshift; [|done|].
    + split; [exact Hshift|].
      destruct Hshift as (_ & i & j & c & _ & -> & Hj & ->).
      pose proof (twoBitVal_range c) as Hv.
      assert (0 <= 2 * (j - 16 * i) <= 30) as Hs by lia.
      split; [exact Hs|].
      pose proof (shifted_code_fits _ _ Hv Hs) as Hfits.
      rewrite Hfits. rewrite Z.shiftl_mul_pow2 by lia. split; [done|].
      rewrite <- Z.shiftl_mul_pow2, <- Hfits by lia.
      unfold wrap_u32, UINT32_MAX.
      pose proof (Z.mod_pos_bound
                    (Z.shiftl (twoBitVal c) (2 * (j - 16 * i))) (2 ^ 32)).
      lia.
    + pose proof (fair_range sigma 0 (ceil16 seqLen) Hfair) as Hr.
      eapply Forall_impl; [exact Hr|]. simpl. lia.
Qed.

Lemma shifts_within_width_witness :
  fair in_order /\ precondition ["G"; "A"; "C"; "T"]%byte 4 [0] /\
  exists m, call in_order ["G"; "A"; "C"; "T"]%byte 4 [0] = Some m /\
    (forall j, 0 <= j < 4 ->
       exists before c after,
         m_log m = before ++ EvLoadSeq j c
           :: EvShl (twoBitVal c) (2 * (j - 16 * (j / 16))) :: after) /\
    (forall before v s after,
       m_log m = before ++ EvShl v s :: after ->
       (exists before' i j c,
          before = before' ++ [EvLoadSeq j c] /\
          v = twoBitVal c /\
          16 * i <= j < 16 * i + 16 /\
          s = 2 * (j - 16 * i)) /\
       0 <= s <= 30 /\
       wrap_u32 (Z.shiftl v s) = v * 2 ^ s /\
       v * 2 ^ s <= UINT32_MAX).
Proof.
  assert (fair in_order) as Hfair by (intros l; reflexivity).
  assert (precondition ["G"; "A"; "C"; "T"]%byte 4 [0]) as Hpre
    by (constructor; vm_compute; congruence).
  split; [exact Hfair|]. split; [exact Hpre|].
  exact (shifts_within_width in_order ["G"; "A"; "C"; "T"]%byte 4 [0]
           Hfair Hpre).
Defined.

(** * Further properties of [twoBitCompress] *)

(** ** When the precondition does not hold *)

Lemma store_out_beyond i w m :
  Z.of_nat (length (m_compressedSeq m)) <= i -> store_out i w m = None.
Proof.
  intros Hi. unfold store_out.
  destruct (Nat.ltb_spec (Z.to_nat i) (length (m_compressedSeq m)));
    [lia|]. by rewrite andb_false_r.
Qed.

Lemma load_seq_beyond j m :
  Z.of_nat (length (m_seq m)) <= j -> load_seq j m = None.
Proof.
  intros Hj. unfold load_seq. destruct (0 <=? j); [|done].
  by rewrite lookup_ge_None_2 by lia.
Qed.

(** Once one invocation is bound to fail in every state of the given
    buffer lengths, so is the whole loop. *)
Lemma run_all_fails f i (lenSeq lenOut : nat) indices : forall m,
  (forall i', frames_input (f i')) ->
  (forall m', length (m_seq m') = lenSeq ->
              length (m_compressedSeq m') = lenOut -> f i m' = None) ->
  i ∈ indices ->
  length (m_seq m) = lenSeq -> length (m_compressedSeq m) = lenOut ->
  run_all f indices m = None.
Proof.
  induction indices as [|i' indices IH]; intros m Hframe Hfail Hin Hs Ho.
  - by apply elem_of_nil in Hin.
  - simpl. unfold bind.
    destruct (f i' m) as [[[] m1]|] eqn:Hrun; [|done].
    destruct (Hframe i' _ _ _ Hrun) as [Hs1 Ho1].
    apply elem_of_cons in Hin as [->|Hin].
    + by rewrite Hfail in Hrun.
    + apply IH; (done || congruence).
Qed.

(** The inner loop fails when it has to pass the end of [seq]. *)
Lemma for_loop_beyond fuel : forall i end_ j shift m,
  0 <= j <= Z.of_nat (length (m_seq m)) ->
  Z.of_nat (length (m_seq m)) < end_ -> end_ <= SIZE_MAX ->
  for_loop fuel i end_ j shift m = None.
Proof.
  induction fuel as [|fuel IH]; intros i end_ j shift m Hj Hend Hmax;
    simpl; destruct (Z.ltb_spec j end_); try lia; [done|].
  unfold bind.
  destruct (loop_body i j shift m) as [[shift' m1]|] eqn:Hbody; [|done].
  destruct (frames_loop_body i j shift _ _ _ Hbody) as [Hs1 _].
  destruct (decide (j = Z.of_nat (length (m_seq m)))) as [->|Hne].
  { unfold loop_body, bind in Hbody.
    by rewrite load_seq_beyond in Hbody by lia. }
  replace (wrap_size (j + 1)) with (j + 1)
    by (unfold wrap_size, SIZE_MAX in *; rewrite Z.mod_small; lia).
  apply IH; rewrite ?Hs1; lia.
Qed.

Lemma lambda_short_input seqLen i m :
  Z.of_nat (length (m_seq m)) < seqLen -> seqLen + 15 <= SIZE_MAX ->
  i = Z.of_nat (length (m_seq m)) / 16 ->
  lambda seqLen i m = None.
Proof.
  intros Hshort Hsize ->. unfold lambda, bind.
  destruct (store_out _ 0 m) as [[[] m1]|] eqn:Hstore; [|done].
  destruct (frames_store_out _ _ _ _ _ Hstore) as [Hs1 _].
  set (L := Z.of_nat (length (m_seq m))) in *.
  assert (0 <= L) by lia.
  replace (wrap_size (16 * (L / 16))) with (16 * (L / 16))
    by (unfold wrap_size, SIZE_MAX in *; rewrite Z.mod_small; lia).
  replace (wrap_size (16 * (L / 16) + 16)) with (16 * (L / 16) + 16)
    by (unfold wrap_size, SIZE_MAX in *; rewrite Z.mod_small; lia).
  apply for_loop_beyond; rewrite ?Hs1; fold L; unfold SIZE_MAX in *; lia.
Qed.





(** X3. At the upper end of [size_t] the word count wraps: for a [seqLen]
    within 15 of [SIZE_MAX] the sum [seqLen + 15] overflows, the loop range
    is empty and a call does nothing at all, in any state - although
    [ceil(seqLen/16)] is [2^60]. *)
Theorem huge_seqLen_is_noop sigma seqLen m :
  fair sigma -> SIZE_MAX - 15 < seqLen <= SIZE_MAX ->
  compressedSeqLen seqLen = 0 /\
  ceil16 seqLen = 2 ^ 60 /\
  twoBitCompress sigma seqLen m = Some (tt, m).
Proof.
  intros Hfair Hhuge.
  pose proof (compressedSeqLen_wraps seqLen Hhuge) as Hn.
  split; [done|]. split.
  { unfold ceil16, SIZE_MAX in *.
    destruct (Z.eqb_spec (seqLen mod 16) 0); lia. }
  unfold twoBitCompress, parallel_for. rewrite Hn.
  change (seqZ 0 (0 - 0)) with (@nil Z).
  pose proof (Hfair []) as ->%Permutation_nil_r. done.
Qed.

Lemma huge_seqLen_is_noop_witness :
  fair in_order /\ SIZE_MAX - 15 < SIZE_MAX <= SIZE_MAX /\
  compressedSeqLen SIZE_MAX = 0 /\
  ceil16 SIZE_MAX = 2 ^ 60 /\
  twoBitCompress in_order SIZE_MAX (Machine [] [] []) =
    Some (tt, Machine [] [] []).
Proof.
  assert (fair in_order) as Hfair by (intros l; reflexivity).
  assert (SIZE_MAX - 15 < SIZE_MAX <= SIZE_MAX) as Hhuge
    by (split; vm_compute; congruence).
  split; [exact Hfair|]. split; [exact Hhuge|].
  exact (huge_seqLen_is_noop in_order SIZE_MAX (Machine [] [] [])
           Hfair Hhuge).
Defined.

(** ** Bytes of [seq] beyond [seqLen] *)

Lemma same_below_refl n m : same_below n m m.
Proof. by repeat split. Qed.

Lemma blind_ret {A} n (a : A) : blind_from n (ret a).
Proof. intros m m' Hm. by split. Qed.

Lemma blind_fail {A} n : blind_from n (@fail A).
Proof. by intros m m' Hm. Qed.

Lemma blind_bind {A B} n (c : M A) (k : A -> M B) :
  blind_from n c -> (forall a, blind_from n (k a)) -> blind_from n (bind c k).
Proof.
  intros Hc Hk m m' Hm. unfold bind. specialize (Hc m m' Hm).
  destruct (c m) as [[a m1]|], (c m') as [[a' m1']|]; try done.
  destruct Hc as [<- Hm1]. by apply Hk.
Qed.

Lemma blind_load_seq n j : j < n -> blind_from n (load_seq j).
Proof.
  intros Hj m m' (Hseq & Hout & Hlog). unfold load_seq.
  destruct (Z.leb_spec 0 j); [|done].
  assert (m_seq m !! Z.to_nat j = m_seq m' !! Z.to_nat j) as ->.
  { rewrite <- (lookup_take_lt (m_seq m) (Z.to_nat n)) by lia.
    rewrite <- (lookup_take_lt (m_seq m') (Z.to_nat n)) by lia.
    by rewrite Hseq. }
  destruct (m_seq m' !! Z.to_nat j); [|done].
  split; [done|]. unfold record. repeat split; simpl; congruence.
Qed.

Lemma blind_load_out n i : blind_from n (load_out i).
Proof.
  intros m m' (Hseq & Hout & Hlog). unfold load_out. rewrite Hout.
  destruct (0 <=? i); [|done].
  destruct (m_compressedSeq m' !! Z.to_nat i); [|done].
  split; [done|]. unfold record. repeat split; simpl; congruence.
Qed.

Lemma blind_store_out n i w : blind_from n (store_out i w).
Proof.
  intros m m' (Hseq & Hout & Hlog). unfold store_out. rewrite Hout.
  destruct (_ && _); [|done].
  split; [done|]. repeat split; simpl; congruence.
Qed.

Lemma blind_shl_u32 n v s : blind_from n (shl_u32 v s).
Proof.
  intros m m' (Hseq & Hout & Hlog). unfold shl_u32.
  destruct (_ && _); [|done].
  split; [done|]. unfold record. repeat split; simpl; congruence.
Qed.

Lemma blind_loop_body n i j shift :
  j < n -> blind_from n (loop_body i j shift).
Proof.
  intros Hj. unfold loop_body.
  apply blind_bind; [by apply blind_load_seq|]. intros c.
  apply blind_bind; [apply blind_shl_u32|]. intros v.
  apply blind_bind; [apply blind_load_out|]. intros w.
  apply blind_bind; [apply blind_store_out|]. intros _. apply blind_ret.
Qed.

Lemma blind_for_loop n fuel : forall i end_ j shift,
  end_ <= n -> blind_from n (for_loop fuel i end_ j shift).
Proof.
  induction fuel as [|fuel IH]; intros i end_ j shift Hend; simpl;
    destruct (Z.ltb_spec j end_);
    try apply blind_ret; try apply blind_fail.
  apply blind_bind; [apply blind_loop_body; lia|].
  intros shift'. by apply IH.
Qed.

Lemma blind_lambda seqLen i : blind_from seqLen (lambda seqLen i).
Proof.
  unfold lambda. apply blind_bind; [apply blind_store_out|].
  intros _. apply blind_for_loop. lia.
Qed.

Lemma blind_run_all n f indices :
  (forall i, blind_from n (f i)) -> blind_from n (run_all f indices).
Proof.
  intros Hf. induction indices as [|i indices IH]; simpl.
  - apply blind_ret.
  - apply blind_bind; [apply Hf|]. intros _. exact IH.
Qed.

Lemma blind_twoBitCompress sigma seqLen :
  blind_from seqLen (twoBitCompress sigma seqLen).
Proof.
  unfold twoBitCompress, parallel_for. apply blind_run_all.
  intros i. apply blind_lambda.
Qed.

(** X4. The bytes of the sequence buffer from index [seqLen] on are never
    read.  On two buffers that agree on their first [seqLen] bytes, two
    calls with the same scheduler either both fail or both return, with
    the same output words and the same log of operations. *)
Theorem tail_of_seq_is_ignored sigma seq seq' seqLen compressedSeq :
  take (Z.to_nat seqLen) seq = take (Z.to_nat seqLen) seq' ->
  (fun m => (m_compressedSeq m, m_log m))
     <$> call sigma seq seqLen compressedSeq =
  (fun m => (m_compressedSeq m, m_log m))
     <$> call sigma seq' seqLen compressedSeq.
Proof.
  intros Htake.
  pose proof (blind_twoBitCompress sigma seqLen
                (Machine seq compressedSeq []) (Machine seq' compressedSeq [])
                (conj Htake (conj eq_refl eq_refl))) as Hagree.
  unfold call.
  destruct (twoBitCompress sigma seqLen (Machine seq compressedSeq []))
    as [[[] m]|],
    (twoBitCompress sigma seqLen (Machine seq' compressedSeq []))
    as [[[] m']|]; try done.
  destruct Hagree as (_ & _ & Hout & Hlog). simpl. by rewrite Hout, Hlog.
Qed.

Lemma tail_of_seq_is_ignored_witness :
  take (Z.to_nat 4) ["G"; "A"; "C"; "T"; "T"; "T"]%byte =
    take (Z.to_nat 4) ["G"; "A"; "C"; "T"]%byte /\
  (fun m => (m_compressedSeq m, m_log m))
     <$> call in_order ["G"; "A"; "C"; "T"; "T"; "T"]%byte 4 [0] =
  (fun m => (m_compressedSeq m, m_log m))
     <$> call in_order ["G"; "A"; "C"; "T"]%byte 4 [0].
Proof.
  assert (take (Z.to_nat 4) ["G"; "A"; "C"; "T"; "T"; "T"]%byte =
          take (Z.to_nat 4) ["G"; "A"; "C"; "T"]%byte) as Htake
    by reflexivity.
  split; [exact Htake|].
  exact (tail_of_seq_is_ignored in_order ["G"; "A"; "C"; "T"; "T"; "T"]%byte
           ["G"; "A"; "C"; "T"]%byte 4 [0] Htake).
Defined.

(** X5. A sequence buffer longer than [seqLen] is allowed: the call
    returns and leaves the words of the first [seqLen] bytes. *)
Theorem longer_seq_buffer sigma seq seqLen compressedSeq :
  fair sigma -> 0 <= seqLen <= Z.of_nat (length seq) ->
  seqLen + 15 <= SIZE_MAX ->
  Z.of_nat (length compressedSeq) = ceil16 seqLen ->
  exists m m',
    call sigma seq seqLen compressedSeq = Some m /\
    call sigma (take (Z.to_nat seqLen) seq) seqLen compressedSeq = Some m' /\
    m_compressedSeq m = m_compressedSeq m' /\
    m_seq m = seq.
Proof.
  intros Hfair Hlen Hsize Hout.
  assert (precondition (take (Z.to_nat seqLen) seq) seqLen compressedSeq)
    as Hpre by (constructor; [rewrite length_take; lia|done..]).
  pose proof (call_post sigma _ _ _ Hfair Hpre) as Hcall'.
  pose proof (blind_twoBitCompress sigma seqLen
                (Machine seq compressedSeq [])
                (Machine (take (Z.to_nat seqLen) seq) compressedSeq [])) as Ha.
  unfold call in *.
  destruct (twoBitCompress sigma seqLen
              (Machine (take (Z.to_nat seqLen) seq) compressedSeq []))
    as [[[] m']|] eqn:Hrun'; [|done].
  destruct (twoBitCompress sigma seqLen (Machine seq compressedSeq []))
    as [[[] m]|] eqn:Hrun.
  - destruct Ha as (_ & _ & Hwords & _).
    { repeat split. simpl. by rewrite take_take, Nat.min_id. }
    destruct (frames_twoBitCompress _ _ _ _ _ Hrun) as [Hseq _].
    by exists m, m'.
  - exfalso. apply Ha. repeat split. simpl.
    by rewrite take_take, Nat.min_id.
Qed.

Lemma longer_seq_buffer_witness :
  fair in_order /\
  0 <= 4 <= Z.of_nat (length ["G"; "A"; "C"; "T"; "T"; "T"]%byte) /\
  4 + 15 <= SIZE_MAX /\ Z.of_nat (length [0]) = ceil16 4 /\
  exists m m',
    call in_order ["G"; "A"; "C"; "T"; "T"; "T"]%byte 4 [0] = Some m /\
    call in_order (take (Z.to_nat 4) ["G"; "A"; "C"; "T"; "T"; "T"]%byte)
      4 [0] = Some m' /\
    m_compressedSeq m = m_compressedSeq m' /\
    m_seq m = ["G"; "A"; "C"; "T"; "T"; "T"]%byte.
Proof.
  assert (fair in_order) as Hfair by (intros l; reflexivity).
  assert (0 <= 4 <= Z.of_nat (length ["G"; "A"; "C"; "T"; "T"; "T"]%byte))
    as Hlen by (split; vm_compute; congruence).
  assert (4 + 15 <= SIZE_MAX) as Hsize by (vm_compute; congruence).
  split; [exact Hfair|]. split; [exact Hlen|]. split; [exact Hsize|].
  split; [reflexivity|].
  exact (longer_seq_buffer in_order ["G"; "A"; "C"; "T"; "T"; "T"]%byte 4 [0]
           Hfair Hlen Hsize eq_refl).
Defined.

(** ** The value of a word *)

Lemma high_bits_clear w s b :
  0 <= w < 2 ^ s -> s <= b -> Z.testbit w b = false.
Proof.
  intros Hw Hb. destruct (decide (w = 0)) as [->|]; [apply Z.bits_0|].
  apply Z.bits_above_log2; [lia|].
  apply Z.lt_le_trans with s; [|done]. apply Z.log2_lt_pow2; lia.
Qed.

(** OR-ing into the bits above those of [w] is adding. *)
Lemma lor_above w v s :
  0 <= s -> 0 <= w < 2 ^ s -> 0 <= v ->
  Z.lor w (Z.shiftl v s) = w + v * 2 ^ s.
Proof.
  intros Hs Hw Hv.
  assert (Z.land w (Z.shiftl v s) = 0) as Hdisjoint.
  { apply Z.bits_inj'. intros b Hb.
    rewrite Z.land_spec, Z.bits_0, Z.shiftl_spec by done.
    destruct (decide (b < s)).
    - rewrite (Z.testbit_neg_r v) by lia. apply andb_false_r.
    - by rewrite (high_bits_clear w s b) by lia. }
  rewrite <- Z.shiftl_mul_pow2 by done.
  by rewrite <- Z.lxor_lor, <- Z.add_nocarry_lxor.
Qed.

Lemma accumulate_base4 cs : forall w shift,
  0 <= shift -> 0 <= w < 2 ^ shift ->
  accumulate w shift cs = w + 2 ^ shift * base4 cs /\
  0 <= base4 cs < 4 ^ Z.of_nat (length cs).
Proof.
  induction cs as [|c cs IH]; intros w shift Hs Hw.
  - simpl. lia.
  - pose proof (twoBitVal_range c) as Hv.
    assert (2 ^ (shift + 2) = 4 * 2 ^ shift) as Hpow
      by (rewrite Z.pow_add_r by lia; lia).
    cbn [accumulate base4]. rewrite lor_above by lia.
    destruct (IH (w + twoBitVal c * 2 ^ shift) (shift + 2)) as [-> Hb];
      [lia|rewrite Hpow; nia|].
    rewrite Hpow. split; [lia|].
    replace (Z.of_nat (length (c :: cs)))
      with (Z.succ (Z.of_nat (length cs))) by (simpl length; lia).
    rewrite Z.pow_succ_r by lia. lia.
Qed.

Lemma word_base4 seq seqLen i :
  word seq seqLen i = base4 (chunk seq seqLen i) /\
  0 <= base4 (chunk seq seqLen i) < 4 ^ Z.of_nat (length (chunk seq seqLen i)).
Proof.
  unfold word.
  destruct (accumulate_base4 (chunk seq seqLen i) 0 0) as [-> Hb];
    [lia|simpl; lia|].
  split; [lia|done].
Qed.

(** X6. The value of a word.  Output word [i] is the number whose base-4
    digits, least significant first, are the codes of the symbols at
    positions [16*i], [16*i+1], ... of the word; with [n] symbols in the
    word it is below [4^n], hence at most [UINT32_MAX]. *)
Theorem word_is_base4_number sigma seq seqLen compressedSeq :
  fair sigma -> precondition seq seqLen compressedSeq ->
  exists m, call sigma seq seqLen compressedSeq = Some m /\
    forall i, 0 <= i < ceil16 seqLen ->
      exists w,
        m_compressedSeq m !! Z.to_nat i = Some w /\
        w = base4 (take (Z.to_nat (Z.min seqLen (16 * i + 16) - 16 * i))
                     (drop (Z.to_nat (16 * i)) seq)) /\
        0 <= w < 4 ^ (Z.min seqLen (16 * i + 16) - 16 * i) /\
        w <= UINT32_MAX.
Proof.
  intros Hfair Hpre. pose proof Hpre as [Hseq Hsize Hout].
  pose proof (ceil16_spec seqLen) as Hceil.
  eexists. split; [by apply call_post|]. simpl. intros i Hi.
  exists (word seq seqLen i). split; [by apply call_post_lookup|].
  destruct (word_base4 seq seqLen i) as [Hw Hb].
  rewrite length_chunk in Hb by (done || lia).
  unfold symbols_in_word in Hb.
  split; [exact Hw|]. rewrite Hw. split; [exact Hb|].
  assert (4 ^ (Z.min seqLen (16 * i + 16) - 16 * i) <= 4 ^ 16)
    by (apply Z.pow_le_mono_r; lia).
  unfold UINT32_MAX. change (4 ^ 16) with (2 ^ 32) in *. lia.
Qed.

Lemma word_is_base4_number_witness :
  fair in_order /\ precondition ["G"; "A"; "C"; "T"]%byte 4 [0] /\
  exists m, call in_order ["G"; "A"; "C"; "T"]%byte 4 [0] = Some m /\
    forall i, 0 <= i < ceil16 4 ->
      exists w,
        m_compressedSeq m !! Z.to_nat i = Some w /\
        w = base4 (take (Z.to_nat (Z.min 4 (16 * i + 16) - 16 * i))
                     (drop (Z.to_nat (16 * i)) ["G"; "A"; "C"; "T"]%byte)) /\
        0 <= w < 4 ^ (Z.min 4 (16 * i + 16) - 16 * i) /\
        w <= UINT32_MAX.
Proof.
  assert (fair in_order) as Hfair by (intros l; reflexivity).
  assert (precondition ["G"; "A"; "C"; "T"]%byte 4 [0]) as Hpre
    by (constructor; vm_compute; congruence).
  split; [exact Hfair|]. split; [exact Hpre|].
  exact (word_is_base4_number in_order ["G"; "A"; "C"; "T"]%byte 4 [0]
           Hfair Hpre).
Defined.

(** X7. No store truncates: every value a call writes to the output
    buffer, intermediate values included, is a [uint32_t]. *)
Theorem stored_values_are_u32 sigma seq seqLen compressedSeq :
  fair sigma -> precondition seq seqLen compressedSeq ->
  exists m, call sigma seq seqLen compressedSeq = Some m /\
    forall i w, EvStoreOut i w ∈ m_log m -> 0 <= w <= UINT32_MAX.
Proof.
  intros Hfair Hpre. pose proof Hpre as [Hseq Hsize Hout].
  pose proof (ceil16_spec seqLen) as Hceil.
  eexists. split; [by apply call_post|]. simpl.
  intros i w (i' & Hi' & Hin)%elem_of_flat_map.
  rewrite (Hfair _), elem_of_seqZ in Hi'.
  unfold word_trace in Hin. apply elem_of_cons in Hin as [[= _ ->]|Hin].
  { unfold UINT32_MAX. lia. }
  pose proof (length_chunk seq seqLen i' Hseq) as Hlen.
  pose proof (symbols_in_word_range seqLen i') as Hn.
  assert (Forall (fun e => match e with
                           | EvStoreOut _ w' => 0 <= w' <= UINT32_MAX
                           | _ => True
                           end)
            (loop_trace i' (16 * i') 0 0 (chunk seq seqLen i'))) as Hall
    by (apply loop_trace_stores_u32; unfold UINT32_MAX; lia).
  rewrite Forall_forall in Hall. exact (Hall _ Hin).
Qed.

Lemma stored_values_are_u32_witness :
  fair in_order /\ precondition ["G"; "A"; "C"; "T"]%byte 4 [0] /\
  exists m, call in_order ["G"; "A"; "C"; "T"]%byte 4 [0] = Some m /\
    forall i w, EvStoreOut i w ∈ m_log m -> 0 <= w <= UINT32_MAX.
Proof.
  assert (fair in_order) as Hfair by (intros l; reflexivity).
  assert (precondition ["G"; "A"; "C"; "T"]%byte 4 [0]) as Hpre
    by (constructor; vm_compute; congruence).
  split; [exact Hfair|]. split; [exact Hpre|].
  exact (stored_values_are_u32 in_order ["G"; "A"; "C"; "T"]%byte 4 [0]
           Hfair Hpre).
Defined.

(** ** Losslessness *)

Lemma twoBitVal_inj c c' :
  c ∈ ["A"; "C"; "G"; "T"]%byte -> c' ∈ ["A"; "C"; "G"; "T"]%byte ->
  twoBitVal c = twoBitVal c' -> c = c'.
Proof.
  intros Hc Hc'.
  repeat (apply elem_of_cons in Hc as [->|Hc]);
    [..|by apply elem_of_nil in Hc];
    repeat (apply elem_of_cons in Hc' as [->|Hc']);
    try (by apply elem_of_nil in Hc'); simpl; congruence.
Qed.

(** X8. On sequences of A, C, G, T the packing is lossless: two such
    sequences of the same length that are packed to the same words are
    equal (whatever the schedulers and the initial buffers). *)
Theorem packing_is_injective sigma1 sigma2 seq1 seq2 seqLen out1 out2 :
  fair sigma1 -> fair sigma2 ->
  precondition seq1 seqLen out1 -> precondition seq2 seqLen out2 ->
  Forall (fun c => c ∈ ["A"; "C"; "G"; "T"]%byte) seq1 ->
  Forall (fun c => c ∈ ["A"; "C"; "G"; "T"]%byte) seq2 ->
  m_compressedSeq <$> call sigma1 seq1 seqLen out1 =
    m_compressedSeq <$> call sigma2 seq2 seqLen out2 ->
  seq1 = seq2.
Proof.
  intros Hfair1 Hfair2 Hpre1 Hpre2 Hacgt1 Hacgt2 Hsame.
  rewrite !call_post in Hsame by done. simpl in Hsame.
  injection Hsame as Hwords.
  pose proof Hpre1 as [Hseq1 Hsize _]. pose proof Hpre2 as [Hseq2 _ _].
  pose proof (ceil16_spec seqLen) as Hceil.
  apply list_eq. intros p.
  destruct (decide (p < length seq1)%nat) as [Hlt|Hge];
    [|by rewrite !lookup_ge_None_2 by lia].
  set (i := Z.of_nat p / 16). set (k := Z.of_nat p mod 16).
  assert (word seq1 seqLen i = word seq2 seqLen i) as Hword.
  { apply (inj Some).
    rewrite <- !call_post_lookup by (unfold i; lia). by rewrite Hwords. }
  destruct (word_slot seq1 seqLen i k) as (c1 & Hc1 & _ & _ & Hv1);
    [done|unfold i, k; lia..|].
  destruct (word_slot seq2 seqLen i k) as (c2 & Hc2 & _ & _ & Hv2);
    [done|unfold i, k; lia..|].
  replace (Z.to_nat (16 * i + k)) with p in * by (unfold i, k; lia).
  rewrite Hc1, Hc2. f_equal. apply twoBitVal_inj.
  - exact (Forall_lookup_1 _ _ _ _ Hacgt1 Hc1).
  - exact (Forall_lookup_1 _ _ _ _ Hacgt2 Hc2).
  - by rewrite <- Hv1, <- Hv2, Hword.
Qed.

Lemma packing_is_injective_witness :
  fair in_order /\ fair backwards /\
  precondition ["G"; "A"; "C"; "T"]%byte 4 [0] /\
  precondition ["G"; "A"; "C"; "T"]%byte 4 [7] /\
  Forall (fun c => c ∈ ["A"; "C"; "G"; "T"]%byte)
    ["G"; "A"; "C"; "T"]%byte /\
  Forall (fun c => c ∈ ["A"; "C"; "G"; "T"]%byte)
    ["G"; "A"; "C"; "T"]%byte /\
  m_compressedSeq <$> call in_order ["G"; "A"; "C"; "T"]%byte 4 [0] =
    m_compressedSeq <$> call backwards ["G"; "A"; "C"; "T"]%byte 4 [7] /\
  ["G"; "A"; "C"; "T"]%byte = ["G"; "A"; "C"; "T"]%byte.
Proof.
  assert (fair in_order) as Hfair1 by (intros l; reflexivity).
  assert (fair backwards) as Hfair2
    by (intros l; unfold backwards; apply reverse_Permutation).
  assert (precondition ["G"; "A"; "C"; "T"]%byte 4 [0]) as Hpre1
    by (constructor; vm_compute; congruence).
  assert (precondition ["G"; "A"; "C"; "T"]%byte 4 [7]) as Hpre2
    by (constructor; vm_compute; congruence).
  assert (Forall (fun c => c ∈ ["A"; "C"; "G"; "T"]%byte)
            ["G"; "A"; "C"; "T"]%byte) as Hacgt
    by (repeat constructor).
  assert (m_compressedSeq <$> call in_order ["G"; "A"; "C"; "T"]%byte 4 [0] =
          m_compressedSeq <$> call backwards ["G"; "A"; "C"; "T"]%byte 4 [7])
    as Hsame by reflexivity.
  split; [exact Hfair1|]. split; [exact Hfair2|].
  split; [exact Hpre1|]. split; [exact Hpre2|].
  split; [exact Hacgt|]. split; [exact Hacgt|]. split; [exact Hsame|].
  exact (packing_is_injective in_order backwards ["G"; "A"; "C"; "T"]%byte
           ["G"; "A"; "C"; "T"]%byte 4 [0] [7]
           Hfair1 Hfair2 Hpre1 Hpre2 Hacgt Hacgt Hsame).
Defined.

(** ** Concatenation *)

Lemma chunk_app_l seq1 seq2 seqLen2 i :
  0 <= i -> 16 * i + 16 <= Z.of_nat (length seq1) -> 0 <= seqLen2 ->
  chunk (seq1 ++ seq2) (Z.of_nat (length seq1) + seqLen2) i =
    chunk seq1 (Z.of_nat (length seq1)) i.
Proof.
  intros Hi Hfull Hpos. unfold chunk, symbols_in_word.
  replace (Z.min (Z.of_nat (length seq1) + seqLen2) (16 * i + 16))
    with (16 * i + 16) by lia.
  replace (Z.min (Z.of_nat (length seq1)) (16 * i + 16))
    with (16 * i + 16) by lia.
  rewrite drop_app_le by lia. apply take_app_le.
  rewrite length_drop. lia.
Qed.

Lemma chunk_app_r seq1 seq2 seqLen2 n1 i :
  Z.of_nat (length seq1) = 16 * n1 -> 0 <= i ->
  chunk (seq1 ++ seq2) (Z.of_nat (length seq1) + seqLen2) (n1 + i) =
    chunk seq2 seqLen2 i.
Proof.
  intros Hn1 Hi. unfold chunk, symbols_in_word.
  rewrite drop_app_ge by lia. f_equal; [|f_equal]; lia.
Qed.

(** X9. Packing composes over concatenation at a word boundary: when the
    length of [seq1] is a multiple of 16, the words of [seq1 ++ seq2] are
    the words of [seq1] followed by the words of [seq2]. *)
Theorem packing_of_concatenation sigma seq1 seq2 seqLen1 seqLen2
    out out1 out2 :
  fair sigma -> seqLen1 mod 16 = 0 ->
  precondition (seq1 ++ seq2) (seqLen1 + seqLen2) out ->
  precondition seq1 seqLen1 out1 -> precondition seq2 seqLen2 out2 ->
  exists m m1 m2,
    call sigma (seq1 ++ seq2) (seqLen1 + seqLen2) out = Some m /\
    call sigma seq1 seqLen1 out1 = Some m1 /\
    call sigma seq2 seqLen2 out2 = Some m2 /\
    m_compressedSeq m = m_compressedSeq m1 ++ m_compressedSeq m2.
Proof.
  intros Hfair Hmod Hpre Hpre1 Hpre2.
  do 3 eexists. repeat (split; [by apply call_post|]). simpl.
  destruct Hpre1 as [Hseq1 _ _]. destruct Hpre2 as [Hseq2 _ _]. subst.
  set (L1 := Z.of_nat (length seq1)) in *.
  set (L2 := Z.of_nat (length seq2)) in *.
  assert (L1 = 16 * (L1 / 16)) as Hn1 by lia.
  assert (ceil16 L1 = L1 / 16) as Hc1
    by (unfold ceil16; destruct (Z.eqb_spec (L1 mod 16) 0); lia).
  assert (ceil16 (L1 + L2) = L1 / 16 + ceil16 L2) as Hc.
  { unfold ceil16.
    destruct (Z.eqb_spec ((L1 + L2) mod 16) 0),
             (Z.eqb_spec (L2 mod 16) 0); lia. }
  pose proof (ceil16_spec L2) as Hceil2.
  rewrite Hc, Hc1, seqZ_app, fmap_app by lia. f_equal.
  - apply list_fmap_ext. intros idx i [-> Hi]%lookup_seqZ.
    unfold word. f_equal. apply chunk_app_l; lia.
  - rewrite Z.add_0_l, <- (Z.add_0_r (L1 / 16)), <- fmap_add_seqZ.
    rewrite <- list_fmap_compose. apply list_fmap_ext.
    intros idx i [-> Hi]%lookup_seqZ. simpl.
    unfold word. f_equal. apply chunk_app_r; lia.
Qed.

Lemma packing_of_concatenation_witness :
  fair backwards /\ 16 mod 16 = 0 /\
  precondition (replicate 16 "C"%byte ++ ["G"; "T"]%byte) (16 + 2) [0; 0] /\
  precondition (replicate 16 "C"%byte) 16 [0] /\
  precondition ["G"; "T"]%byte 2 [0] /\
  exists m m1 m2,
    call backwards (replicate 16 "C"%byte ++ ["G"; "T"]%byte) (16 + 2) [0; 0]
      = Some m /\
    call backwards (replicate 16 "C"%byte) 16 [0] = Some m1 /\
    call backwards ["G"; "T"]%byte 2 [0] = Some m2 /\
    m_compressedSeq m = m_compressedSeq m1 ++ m_compressedSeq m2.
Proof.
  assert (fair backwards) as Hfair
    by (intros l; unfold backwards; apply reverse_Permutation).
  assert (16 mod 16 = 0) as Hmod by reflexivity.
  assert (precondition (replicate 16 "C"%byte ++ ["G"; "T"]%byte) (16 + 2)
            [0; 0]) as Hpre by (constructor; vm_compute; congruence).
  assert (precondition (replicate 16 "C"%byte) 16 [0]) as Hpre1
    by (constructor; vm_compute; congruence).
  assert (precondition ["G"; "T"]%byte 2 [0]) as Hpre2
    by (constructor; vm_compute; congruence).
  split; [exact Hfair|]. split; [exact Hmod|]. split; [exact Hpre|].
  split; [exact Hpre1|]. split; [exact Hpre2|].
  exact (packing_of_concatenation backwards (replicate 16 "C"%byte)
           ["G"; "T"]%byte 16 2 [0; 0] [0] [0]
           Hfair Hmod Hpre Hpre1 Hpre2).
Defined.

(** ** Locality *)

Lemma chunk_lookup_all seq seqLen i k :
  0 <= i ->
  chunk seq seqLen i !! k =
    if decide (Z.of_nat k < symbols_in_word seqLen i)
    then seq !! (Z.to_nat (16 * i) + k)%nat
    else None.
Proof.
  intros Hi. unfold chunk. rewrite lookup_take, lookup_drop.
  destruct (decide (k < Z.to_nat (symbols_in_word seqLen i))%nat),
           (decide (Z.of_nat k < symbols_in_word seqLen i)); done || lia.
Qed.

(** Bit [b] of a word is a bit of the code of symbol [b / 2] of the word,
    if there is one. *)
Lemma word_testbit seq seqLen i b :
  0 <= b ->
  Z.testbit (word seq seqLen i) b =
    match chunk seq seqLen i !! Z.to_nat (b / 2) with
    | Some c => Z.testbit (twoBitVal c) (b mod 2)
    | None => false
    end.
Proof.
  intros Hb. unfold word.
  destruct (chunk seq seqLen i !! Z.to_nat (b / 2)) as [c|] eqn:Hc.
  - pose proof (accumulate_testbit_slot _ 0 0 _ c (b mod 2)
                  (Z.le_refl 0) Hc) as Hslot.
    replace (0 + 2 * Z.of_nat (Z.to_nat (b / 2)) + b mod 2) with b
      in Hslot by lia.
    rewrite Hslot, Z.bits_0 by lia. done.
  - apply lookup_ge_None_1 in Hc.
    rewrite accumulate_testbit_outside, Z.bits_0; [done|done|lia].
Qed.

Lemma chunk_insert_other seq seqLen i p c :
  0 <= i -> Z.of_nat p / 16 <> i ->
  chunk (<[p := c]> seq) seqLen i = chunk seq seqLen i.
Proof.
  intros Hi Hne. apply list_eq. intros k.
  rewrite !chunk_lookup_all by done.
  destruct (decide (Z.of_nat k < symbols_in_word seqLen i)) as [Hk|];
    [|done].
  apply list_lookup_insert_ne. unfold symbols_in_word in Hk. lia.
Qed.

(** X10. Locality: replacing the byte at position [p] changes nothing of
    the output but the two bits of that position's slot, bits
    [2*(p mod 16)] and [2*(p mod 16) + 1] of word [p / 16]; every other
    word and every other bit of that word are as before. *)
Theorem one_symbol_one_slot sigma seq seqLen compressedSeq p c :
  fair sigma -> precondition seq seqLen compressedSeq ->
  (p < length seq)%nat ->
  exists m m',
    call sigma seq seqLen compressedSeq = Some m /\
    call sigma (<[p := c]> seq) seqLen compressedSeq = Some m' /\
    (forall i, i <> (p / 16)%nat ->
       m_compressedSeq m' !! i = m_compressedSeq m !! i) /\
    (forall w w' b,
       m_compressedSeq m !! (p / 16)%nat = Some w ->
       m_compressedSeq m' !! (p / 16)%nat = Some w' ->
       b <> 2 * (Z.of_nat p mod 16) -> b <> 2 * (Z.of_nat p mod 16) + 1 ->
       Z.testbit w' b = Z.testbit w b).
Proof.
  intros Hfair Hpre Hp. pose proof Hpre as [Hseq Hsize Hout].
  pose proof (ceil16_spec seqLen) as Hceil.
  assert (precondition (<[p := c]> seq) seqLen compressedSeq) as Hpre'
    by (constructor; rewrite ?length_insert; done).
  assert ((p / 16)%nat = Z.to_nat (Z.of_nat p / 16)) as Hidx
    by (rewrite Z2Nat.inj_div, Nat2Z.id by lia; done).
  do 2 eexists. repeat (split; [by apply call_post|]).
  cbn [m_compressedSeq]. split.
  - intros i Hi. rewrite !list_lookup_fmap.
    destruct (seqZ 0 (ceil16 seqLen) !! i) as [i'|] eqn:Hi'; [|done].
    apply lookup_seqZ in Hi' as [-> Hlt]. simpl. f_equal.
    unfold word. f_equal. apply chunk_insert_other; [lia|].
    rewrite Hidx in Hi. lia.
  - intros w w' b Hw Hw' Hb0 Hb1.
    rewrite Hidx, call_post_lookup in Hw, Hw' by lia.
    injection Hw as <-. injection Hw' as <-.
    destruct (decide (0 <= b)) as [Hpos|Hneg];
      [|by rewrite !Z.testbit_neg_r by lia].
    rewrite !word_testbit by done.
    rewrite !chunk_lookup_all by lia.
    destruct (decide _) as [Hk|]; [|done].
    rewrite list_lookup_insert_ne; [done|]. lia.
Qed.

Lemma one_symbol_one_slot_witness :
  fair in_order /\ precondition ["G"; "A"; "C"; "T"]%byte 4 [0] /\
  (2 < length ["G"; "A"; "C"; "T"]%byte)%nat /\
  exists m m',
    call in_order ["G"; "A"; "C"; "T"]%byte 4 [0] = Some m /\
    call in_order (<[2%nat := "T"%byte]> ["G"; "A"; "C"; "T"]%byte) 4 [0]
      = Some m' /\
    (forall i, i <> (2 / 16)%nat ->
       m_compressedSeq m' !! i = m_compressedSeq m !! i) /\
    (forall w w' b,
       m_compressedSeq m !! (2 / 16)%nat = Some w ->
       m_compressedSeq m' !! (2 / 16)%nat = Some w' ->
       b <> 2 * (Z.of_nat 2 mod 16) -> b <> 2 * (Z.of_nat 2 mod 16) + 1 ->
       Z.testbit w' b = Z.testbit w b).
Proof.
  assert (fair in_order) as Hfair by (intros l; reflexivity).
  assert (precondition ["G"; "A"; "C"; "T"]%byte 4 [0]) as Hpre
    by (constructor; vm_compute; congruence).
  assert (2 < length ["G"; "A"; "C"; "T"]%byte)%nat as Hp
    by (simpl; lia).
  split; [exact Hfair|]. split; [exact Hpre|]. split; [exact Hp|].
  exact (one_symbol_one_slot in_order ["G"; "A"; "C"; "T"]%byte 4 [0] 2
           "T"%byte Hfair Hpre Hp).
Defined.

(** ** The work of a call *)

Lemma reads_of_app j l1 l2 :
  reads_of j (l1 ++ l2) = (reads_of j l1 + reads_of j l2)%nat.
Proof. unfold reads_of. by rewrite List.filter_app, length_app. Qed.

Lemma loop_trace_reads j0 i cs : forall j w shift,
  reads_of j0 (loop_trace i j w shift cs) =
    if decide (j <= j0 < j + Z.of_nat (length cs)) then 1%nat else 0%nat.
Proof.
  induction cs as [|c cs IH]; intros j w shift.
  - simpl. rewrite decide_False by lia. done.
  - specialize (IH (j + 1) (Z.lor w (Z.shiftl (twoBitVal c) shift))
                  (shift + 2)).
    unfold reads_of in *. simpl.
    destruct (Z.eqb_spec j j0) as [->|Hne]; simpl; rewrite IH;
      repeat case_decide; lia.
Qed.

Lemma word_trace_reads seq seqLen j0 i :
  Z.of_nat (length seq) = seqLen -> 0 <= i -> 16 * i <= seqLen ->
  0 <= j0 < seqLen ->
  reads_of j0 (word_trace seq seqLen i) =
    if decide (i = j0 / 16) then 1%nat else 0%nat.
Proof.
  intros Hseq Hi Hstart Hj0.
  pose proof (loop_trace_reads j0 i (chunk seq seqLen i) (16 * i) 0 0) as Hr.
  rewrite length_chunk in Hr by done.
  unfold word_trace, reads_of in *. simpl.
  rewrite Hr. unfold symbols_in_word. repeat case_decide; lia.
Qed.

Lemma flat_map_reads seq seqLen j0 order :
  Z.of_nat (length seq) = seqLen -> 0 <= j0 < seqLen ->
  NoDup order -> Forall (fun i => 0 <= i /\ 16 * i <= seqLen) order ->
  reads_of j0 (flat_map (word_trace seq seqLen) order) =
    if decide (j0 / 16 ∈ order) then 1%nat else 0%nat.
Proof.
  intros Hseq Hj0. induction 1 as [|i order Hnin Hnodup IH]; intros Hall.
  - rewrite decide_False by apply not_elem_of_nil. done.
  - apply Forall_cons in Hall as [[Hi Hstart] Hall].
    cbn [flat_map]. rewrite reads_of_app, IH by done.
    rewrite word_trace_reads by done.
    destruct (decide (i = j0 / 16)) as [->|Hne].
    + rewrite (decide_False (P := j0 / 16 ∈ order)) by done.
      by rewrite decide_True by apply list_elem_of_here.
    + destruct (decide (j0 / 16 ∈ order)) as [Hin|Hout].
      * by rewrite decide_True by by apply list_elem_of_further.
      * rewrite decide_False; [done|].
        intros [?|?]%elem_of_cons; congruence.
Qed.

Lemma length_loop_trace i cs : forall j w shift,
  length (loop_trace i j w shift cs) = (4 * length cs)%nat.
Proof.
  induction cs as [|c cs IH]; intros j w shift; simpl; [done|].
  rewrite IH. lia.
Qed.

Lemma length_trace_upto seq seqLen (k : nat) :
  Z.of_nat (length seq) = seqLen -> 16 * Z.of_nat k <= seqLen + 15 ->
  Z.of_nat (length (flat_map (word_trace seq seqLen) (seqZ 0 (Z.of_nat k))))
    = Z.of_nat k + 4 * Z.min seqLen (16 * Z.of_nat k).
Proof.
  intros Hseq. induction k as [|k IH]; intros Hk; [simpl; lia|].
  rewrite seqZ_S, flat_map_app, length_app, Nat2Z.inj_add, IH by lia.
  cbn [flat_map]. rewrite app_nil_r. unfold word_trace.
  cbn [length]. rewrite length_loop_trace.
  pose proof (length_chunk seq seqLen (0 + Z.of_nat k) Hseq) as Hlen.
  unfold symbols_in_word in Hlen. lia.
Qed.

(** X11. The work of a call is linear and without repetition: every byte
    of the sequence is read exactly once, and the call performs
    [ceil(seqLen/16) + 4*seqLen] memory and shift operations in all (one
    initial store per word, and a read, a shift, a read and a store per
    symbol). *)
Theorem each_symbol_read_once sigma seq seqLen compressedSeq :
  fair sigma -> precondition seq seqLen compressedSeq ->
  exists m, call sigma seq seqLen compressedSeq = Some m /\
    (forall j, 0 <= j < seqLen -> reads_of j (m_log m) = 1%nat) /\
    Z.of_nat (length (m_log m)) = ceil16 seqLen + 4 * seqLen.
Proof.
  intros Hfair Hpre. pose proof Hpre as [Hseq Hsize Hout].
  pose proof (ceil16_spec seqLen) as Hceil.
  pose proof (Hfair (seqZ 0 (ceil16 seqLen))) as Hperm.
  eexists. split; [by apply call_post|]. simpl. split.
  - intros j Hj. rewrite flat_map_reads; try done.
    + rewrite decide_True; [done|]. rewrite Hperm, elem_of_seqZ. lia.
    + rewrite Hperm. apply NoDup_seqZ.
    + rewrite Hperm. apply Forall_seqZ. lia.
  - rewrite (Permutation_length
               (Permutation_flat_map (word_trace seq seqLen) Hperm)).
    rewrite <- (Z2Nat.id (ceil16 seqLen)) at 1 by lia.
    rewrite length_trace_upto by (done || lia). lia.
Qed.

Lemma each_symbol_read_once_witness :
  fair backwards /\ precondition (replicate 17 "T"%byte) 17 [5; 6] /\
  exists m, call backwards (replicate 17 "T"%byte) 17 [5; 6] = Some m /\
    (forall j, 0 <= j < 17 -> reads_of j (m_log m) = 1%nat) /\
    Z.of_nat (length (m_log m)) = ceil16 17 + 4 * 17.
Proof.
  assert (fair backwards) as Hfair
    by (intros l; unfold backwards; apply reverse_Permutation).
  assert (precondition (replicate 17 "T"%byte) 17 [5; 6]) as Hpre
    by (constructor; vm_compute; congruence).
  split; [exact Hfair|]. split; [exact Hpre|].
  exact (each_symbol_read_once backwards (replicate 17 "T"%byte) 17 [5; 6]
           Hfair Hpre).
Defined.

(** ** No read of an uninitialised word *)

Lemma last_store_app i l1 l2 :
  last_store i (l1 ++ l2) =
    match last_store i l2 with
    | Some w => Some w
    | None => last_store i l1
    end.
Proof.
  induction l1 as [|e l1 IH]; simpl.
  - by destruct (last_store i l2).
  - rewrite IH. by destruct (last_store i l2).
Qed.

Lemma reads_own_stores_nil init : reads_own_stores init [].
Proof. intros [|? ?] i w after Heq; discriminate. Qed.

Lemma reads_own_stores_app init l1 l2 :
  reads_own_stores init l1 -> reads_own_stores (init ++ l1) l2 ->
  reads_own_stores init (l1 ++ l2).
Proof.
  intros H1 H2 before i w after Heq.
  apply app_eq_app in Heq as [l [[-> Heq]|[-> ->]]].
  - destruct l as [|e l].
    + simpl in Heq. subst l2. specialize (H2 [] i w after eq_refl).
      by rewrite !app_nil_r in H2.
    + injection Heq as <- ->. by apply (H1 before i w l).
  - rewrite app_assoc. by apply (H2 l i w after).
Qed.

Lemma reads_own_stores_other init e :
  (forall i w, e <> EvLoadOut i w) -> reads_own_stores init [e].
Proof.
  intros He [|e' [|? ?]] i w after Heq; try discriminate.
  injection Heq as -> _. by destruct (He i w).
Qed.

Lemma reads_own_stores_load init i w :
  last_store i init = Some w -> reads_own_stores init [EvLoadOut i w].
Proof.
  intros Hlast [|e' [|? ?]] i' w' after Heq; try discriminate.
  injection Heq as <- <- _. by rewrite app_nil_r.
Qed.

Lemma last_store_snoc_store i w l :
  last_store i (l ++ [EvStoreOut i w]) = Some w.
Proof. rewrite last_store_app. simpl. by rewrite Z.eqb_refl. Qed.

Lemma last_store_snoc_other i e l :
  (forall w, e <> EvStoreOut i w) ->
  last_store i (l ++ [e]) = last_store i l.
Proof.
  intros He. rewrite last_store_app. simpl.
  destruct e as [| | |i' w']; try done.
  destruct (Z.eqb_spec i' i) as [->|]; [by destruct (He w')|done].
Qed.

Lemma loop_trace_reads_own_stores i cs : forall init j w shift,
  last_store i init = Some w ->
  reads_own_stores init (loop_trace i j w shift cs).
Proof.
  induction cs as [|c cs IH]; intros init j w shift Hlast.
  - apply reads_own_stores_nil.
  - cbn [loop_trace].
    apply (reads_own_stores_app init [EvLoadSeq j c]);
      [by apply reads_own_stores_other|].
    apply (reads_own_stores_app _ [EvShl (twoBitVal c) shift]);
      [by apply reads_own_stores_other|].
    apply (reads_own_stores_app _ [EvLoadOut i w]).
    { apply reads_own_stores_load.
      by rewrite !last_store_snoc_other by done. }
    apply (reads_own_stores_app _ [EvStoreOut i _]);
      [by apply reads_own_stores_other|].
    apply IH. apply last_store_snoc_store.
Qed.

Lemma word_trace_reads_own_stores seq seqLen init i :
  reads_own_stores init (word_trace seq seqLen i).
Proof.
  unfold word_trace.
  apply (reads_own_stores_app init [EvStoreOut i 0]);
    [by apply reads_own_stores_other|].
  apply loop_trace_reads_own_stores, last_store_snoc_store.
Qed.

Lemma flat_map_reads_own_stores seq seqLen order : forall init,
  reads_own_stores init (flat_map (word_trace seq seqLen) order).
Proof.
  induction order as [|i order IH]; intros init; cbn [flat_map].
  - apply reads_own_stores_nil.
  - apply reads_own_stores_app; [apply word_trace_reads_own_stores|].
    apply IH.
Qed.

(** X12. The initial contents of the output buffer are never observed:
    every read of [compressedSeq[i]] during a call comes after a store of
    the same call to [compressedSeq[i]] and returns the value last stored
    there (line 32 initialises each word before line 55 reads it). *)
Theorem output_read_after_written sigma seq seqLen compressedSeq :
  fair sigma -> precondition seq seqLen compressedSeq ->
  exists m, call sigma seq seqLen compressedSeq = Some m /\
    forall before i w after,
      m_log m = before ++ EvLoadOut i w :: after ->
      last_store i before = Some w.
Proof.
  intros Hfair Hpre. eexists. split; [by apply call_post|]. simpl.
  intros before i w after Hlog.
  exact (flat_map_reads_own_stores seq seqLen _ [] before i w after Hlog).
Qed.

Lemma output_read_after_written_witness :
  fair in_order /\ precondition ["G"; "A"; "C"; "T"]%byte 4 [77] /\
  exists m, call in_order ["G"; "A"; "C"; "T"]%byte 4 [77] = Some m /\
    forall before i w after,
      m_log m = before ++ EvLoadOut i w :: after ->
      last_store i before = Some w.
Proof.
  assert (fair in_order) as Hfair by (intros l; reflexivity).
  assert (precondition ["G"; "A"; "C"; "T"]%byte 4 [77]) as Hpre
    by (constructor; vm_compute; congruence).
  split; [exact Hfair|]. split; [exact Hpre|].
  exact (output_read_after_written in_order ["G"; "A"; "C"; "T"]%byte 4 [77]
           Hfair Hpre).
Defined.
